(** * waguan-genz-fn: chat view and call session controller

    A shallow embedding of the chat conversation view ([Chat]) and of the
    call session component ([VideoCall]) of the web client, together with
    the JavaScript primitives they rely on, and the properties of the
    specification that concern them.

    Conventions of the embedding:
    - a JavaScript string is a [string], a sequence of code units below
      256; comparison is by code unit;
    - a JavaScript number that the code uses as a counter, an index or an
      epoch time is an [N] or a [Z]: the arithmetic the code performs on
      them is exact on the safe-integer range they live in;
    - React state is a record; a handler is a function from the state (and
      from what the environment answers: the clock, the result of a request,
      the media stream) to the new state and the list of effects it
      performed, in the order it performed them;
    - objects of the platform that the code holds by reference (peer
      connections, media tracks) live in an explicit store;
    - [console.log] is not recorded among the effects, [console.error] is. *)

From Stdlib Require Import Ascii DecimalString DecimalN ZArith NArith Lia.
From Stdlib Require Import Sorting.Sorted Sorting.Permutation.
From stdpp Require Import gmap strings list.

Local Open Scope Z_scope.

(** ** JavaScript primitives *)

Module JS.

(** [x < y] on strings: lexicographic on code units, a proper prefix
    being smaller. *)
Definition string_lt (x y : string) : bool :=
  match String.compare x y with
  | Lt => true
  | _ => false
  end.

(** The comparison [Array.prototype.sort] uses when it is given no
    comparator. *)
Definition default_compare (x y : string) : Z :=
  if string_lt x y then -1
  else if string_lt y x then 1
  else 0.

(** [Array.prototype.sort] is stable; on a consistent comparator it is the
    stable sort, here by insertion: an element goes before the first one it
    does not exceed. *)
Fixpoint insert {A} (cmp : A -> A -> Z) (x : A) (l : list A) : list A :=
  match l with
  | [] => [x]
  | y :: l' => if cmp x y <=? 0 then x :: y :: l' else y :: insert cmp x l'
  end.

Definition sort {A} (cmp : A -> A -> Z) (l : list A) : list A :=
  foldr (insert cmp) [] l.

(** The order a comparator stands for: [x] may come before [y]. *)
Definition not_after {A} (cmp : A -> A -> Z) (x y : A) : Prop := cmp x y <= 0.

(** [Array.prototype.join]. *)
Definition join (sep : string) (l : list string) : string :=
  String.concat sep l.

(** [Array.prototype.findIndex]: the first index whose element satisfies
    the predicate, [-1] when there is none. *)
Fixpoint findIndex {A} (p : A -> bool) (l : list A) : Z :=
  match l with
  | [] => -1
  | x :: l' =>
      if p x then 0
      else let i := findIndex p l' in if i <? 0 then -1 else i + 1
  end.

(** [Array.prototype.filter], whose callback also receives the index and
    the whole array. *)
Fixpoint filter_from {A} (f : A -> Z -> list A -> bool) (array : list A)
    (index : Z) (l : list A) : list A :=
  match l with
  | [] => []
  | x :: l' =>
      if f x index array then x :: filter_from f array (index + 1) l'
      else filter_from f array (index + 1) l'
  end.

Definition filter_indexed {A} (f : A -> Z -> list A -> bool) (array : list A)
    : list A :=
  filter_from f array 0 array.

(** [Array.prototype.some]. *)
Definition some {A} (p : A -> bool) (l : list A) : bool := existsb p l.

(** [Number.MAX_SAFE_INTEGER], that is [2 ^ 53 - 1]. Up to it a Number
    holds every natural number, and division by a small integer followed by
    [Math.floor], the remainder and [toString] give what they give on the
    integers; beyond it the arithmetic of doubles sets in, which is not
    modelled. *)
Definition MAX_SAFE_INTEGER : N := 9007199254740991.

(** [Number.isSafeInteger] on a non-negative integer. *)
Definition isSafeInteger (n : N) : bool := (n <=? MAX_SAFE_INTEGER)%N.

(** [Number.prototype.toString] on a non-negative integer. *)
Definition Number_toString (n : N) : string :=
  NilZero.string_of_uint (N.to_uint n).

Fixpoint take (n : nat) (s : string) : string :=
  match n, s with
  | S n', String c s' => String c (take n' s')
  | _, _ => EmptyString
  end.

(** The filler of [padStart]: [fillString] repeated, cut at [n]
    characters. *)
Fixpoint filler (fuel n : nat) (fillString : string) : string :=
  match fuel with
  | O => EmptyString
  | S fuel' =>
      if (n <=? String.length fillString)%nat then take n fillString
      else fillString +:+ filler fuel' (n - String.length fillString) fillString
  end.

(** [String.prototype.padStart]. *)
Definition padStart (maxLength : nat) (fillString : string) (s : string)
    : string :=
  let stringLength := String.length s in
  if (maxLength <=? stringLength)%nat then s
  else if String.eqb fillString EmptyString then s
  else
    let fillLen := (maxLength - stringLength)%nat in
    filler fillLen fillLen fillString +:+ s.

(** White space of [String.prototype.trim], on the code units a [string]
    holds, which are the ones below 256: TAB, LF, VT, FF, CR, SP and NBSP.
    The other white space that [trim] removes (U+1680, U+2000 to U+200A,
    U+2028, U+2029, U+202F, U+205F, U+3000, U+FEFF) lies beyond them and
    occurs in no string of the embedding. *)
Definition is_white_space (c : ascii) : bool :=
  let n := nat_of_ascii c in
  ((9 <=? n) && (n <=? 13) || (n =? 32) || (n =? 160))%nat.

Fixpoint trimStart (s : string) : string :=
  match s with
  | EmptyString => EmptyString
  | String c s' => if is_white_space c then trimStart s' else s
  end.

Definition trim (s : string) : string :=
  String.rev (trimStart (String.rev (trimStart s))).

(** A string in a condition: the empty string is falsy. *)
Definition truthy (s : string) : bool := negb (String.eqb s EmptyString).

End JS.

(** ** Handlers: state and effects

    A handler reads and updates the component state and performs effects on
    the outside (requests, socket events, alerts); the effects are recorded in
    the order they happen. *)

Section Handler.
Context {S E : Type}.

Definition M (A : Type) : Type := S -> A * S * list E.

Definition ret {A} (a : A) : M A := fun s => (a, s, []).

Definition bind {A B} (k : A -> M B) (m : M A) : M B :=
  fun s =>
    let '(a, s1, t1) := m s in
    let '(b, s2, t2) := k a s1 in
    (b, s2, t1 ++ t2).

Definition get : M S := fun s => (s, s, []).
Definition modify (f : S -> S) : M unit := fun s => (tt, f s, []).
Definition perform (e : E) : M unit := fun s => (tt, s, [e]).

Definition state_after {A} (r : A * S * list E) : S := snd (fst r).
Definition effects_of {A} (r : A * S * list E) : list E := snd r.
End Handler.

Arguments M : clear implicits.

#[global] Instance M_ret {S E} : MRet (M S E) := @ret S E.
#[global] Instance M_bind {S E} : MBind (M S E) := @bind S E.

(** What a request to the backend comes back with. *)
Inductive Response (A : Type) : Type :=
| Ok (data : A)
| Failed.
Arguments Ok {A} data.
Arguments Failed {A}.

(** ** The chat conversation view *)

Module Chat.

Record User := { user_id : string; username : string }.

Record ChatUser := {
  chat_id : string;
  name : string;
  avatar : string;
  lastMessage : string;
  chat_timestamp : string;
  unread : nat;
  online : bool
}.

(** The chats are the objects of the list of followed users, which is
    built once: equal records stand for the same object. *)
#[global] Instance ChatUser_eq_dec : EqDecision ChatUser.
Proof. solve_decision. Defined.

Inductive Sender := me | other.

Record Message := {
  id : string;
  text : string;
  timestamp : string;
  sender : Sender
}.

(** A message as the backend stores and returns it. In the legacy format
    [doc_chatId] holds a user id, in the new one a pairing identifier.
    [doc_timestamp] is [new Date(msg.timestamp).getTime()], the timestamp
    being a valid date. *)
Record MessageDoc := {
  doc_id : string;
  doc_userId : string;
  doc_chatId : string;
  doc_text : string;
  doc_timestamp : Z
}.

(** The payload of a [receiveMessage] event; [_id] may be absent. *)
Record NewMessage := {
  new_id : option string;
  new_userId : string;
  new_chatId : string;
  new_text : string;
  new_timestamp : Z
}.

Record State := {
  user : option User;
  selectedChat : option ChatUser;
  message : string;
  messages : list Message;
  loading : bool;
  showSidebar : bool;
  unreadCounts : gmap string nat;
  lastMessages : gmap string string
}.

Inductive Effect :=
| ApiGetMessages (chatId : string)
| ApiCreateMessage (chatId text : string)
| EmitUserOnline (userId : string)
| EmitJoinChat (chatId : string)
| EmitSendMessage (chatId userId text : string) (timestamp : Z)
| PlayMessageSound
| ConsoleError.

Definition setSelectedChat (c : option ChatUser) (st : State) : State :=
  {| user := user st; selectedChat := c; message := message st;
     messages := messages st; loading := loading st;
     showSidebar := showSidebar st; unreadCounts := unreadCounts st;
     lastMessages := lastMessages st |}.

Definition setMessage (m : string) (st : State) : State :=
  {| user := user st; selectedChat := selectedChat st; message := m;
     messages := messages st; loading := loading st;
     showSidebar := showSidebar st; unreadCounts := unreadCounts st;
     lastMessages := lastMessages st |}.

Definition setMessages (f : list Message -> list Message) (st : State) : State :=
  {| user := user st; selectedChat := selectedChat st; message := message st;
     messages := f (messages st); loading := loading st;
     showSidebar := showSidebar st; unreadCounts := unreadCounts st;
     lastMessages := lastMessages st |}.

Definition setLoading (b : bool) (st : State) : State :=
  {| user := user st; selectedChat := selectedChat st; message := message st;
     messages := messages st; loading := b;
     showSidebar := showSidebar st; unreadCounts := unreadCounts st;
     lastMessages := lastMessages st |}.

Definition setShowSidebar (b : bool) (st : State) : State :=
  {| user := user st; selectedChat := selectedChat st; message := message st;
     messages := messages st; loading := loading st;
     showSidebar := b; unreadCounts := unreadCounts st;
     lastMessages := lastMessages st |}.

Definition setUnreadCounts (f : gmap string nat -> gmap string nat)
    (st : State) : State :=
  {| user := user st; selectedChat := selectedChat st; message := message st;
     messages := messages st; loading := loading st;
     showSidebar := showSidebar st; unreadCounts := f (unreadCounts st);
     lastMessages := lastMessages st |}.

Definition setLastMessages (f : gmap string string -> gmap string string)
    (st : State) : State :=
  {| user := user st; selectedChat := selectedChat st; message := message st;
     messages := messages st; loading := loading st;
     showSidebar := showSidebar st; unreadCounts := unreadCounts st;
     lastMessages := f (lastMessages st) |}.

(** Utility function to generate consistent chat ID. *)
Definition generateChatId (userId1 userId2 : string) : string :=
  JS.join "_" (JS.sort JS.default_compare [userId1; userId2]).

(** [x === user?.id] *)
Definition is_user_id (u : option User) (x : string) : bool :=
  match u with
  | Some u => String.eqb x (user_id u)
  | None => false
  end.

(** [selectedChat.id === x], false when no chat is selected. *)
Definition is_selected (c : option ChatUser) (x : string) : bool :=
  match c with
  | Some c => String.eqb (chat_id c) x
  | None => false
  end.

Section Handlers.

(** [new Date(t).toLocaleTimeString([], { hour: '2-digit', minute:
    '2-digit' })], which depends on the locale of the browser. *)
Variable toLocaleTimeString : Z -> string.

(** *** Receiving a relayed message *)

(** [msg.id === newMessage._id] *)
Definition same_id (newMessage : NewMessage) (msg : Message) : bool :=
  match new_id newMessage with
  | Some i => String.eqb (id msg) i
  | None => false
  end.

(** [newMessage._id || Date.now().toString()] *)
Definition id_or_now (now : N) (newMessage : NewMessage) : string :=
  match new_id newMessage with
  | Some i => if JS.truthy i then i else JS.Number_toString now
  | None => JS.Number_toString now
  end.

Definition formattedMessage (now : N) (newMessage : NewMessage) : Message :=
  {| id := id_or_now now newMessage;
     text := new_text newMessage;
     timestamp := toLocaleTimeString (new_timestamp newMessage);
     sender := other |}.

(** The listener of [receiveMessage]; [now] is what [Date.now()] reads. *)
Definition receiveMessage (now : N) (newMessage : NewMessage)
    : M State Effect unit :=
  st ← get;
  (* Only add messages from other users to prevent duplicates *)
  (if negb (is_user_id (user st) (new_userId newMessage)) then
     let prev := messages st in
     let messageExists := JS.some (same_id newMessage) prev in
     if negb messageExists then
       let formattedMessage := formattedMessage now newMessage in
       (* Update unread count if not in current chat *)
       (if negb (is_selected (selectedChat st) (new_userId newMessage)) then
          modify (setUnreadCounts (fun prev =>
            <[new_userId newMessage :=
                (default 0%nat (prev !! new_userId newMessage) + 1)%nat]> prev))
        else mret tt) ;;
       (* Update last message for this user *)
       modify (setLastMessages (fun prev =>
         <[new_userId newMessage := new_text newMessage]> prev)) ;;
       modify (setMessages (fun prev => prev ++ [formattedMessage]))
     else mret tt
   else mret tt) ;;
  (* Play message sound for received messages (only from others) *)
  (if negb (is_user_id (user st) (new_userId newMessage)) then
     perform PlayMessageSound
   else mret tt).

(** *** Loading the history of a conversation *)

(** The callback of the filter over the two legacy histories. *)
Definition legacy_filter (u : User) (c : ChatUser)
    (msg : MessageDoc) (index : Z) (array : list MessageDoc) : bool :=
  (* Remove duplicates based on _id *)
  let firstIndex :=
    JS.findIndex (fun m => String.eqb (doc_id m) (doc_id msg)) array in
  if negb (firstIndex =? index) then false
  else
    (* Include messages between these two users *)
    let isConversationMessage :=
      (String.eqb (doc_userId msg) (user_id u) &&
         String.eqb (doc_chatId msg) (chat_id c)) ||
      (String.eqb (doc_userId msg) (chat_id c) &&
         String.eqb (doc_chatId msg) (user_id u)) ||
      (String.eqb (doc_chatId msg) (user_id u) &&
         String.eqb (doc_userId msg) (chat_id c)) ||
      (String.eqb (doc_chatId msg) (chat_id c) &&
         String.eqb (doc_userId msg) (user_id u)) in
    isConversationMessage.

Definition by_timestamp (a b : MessageDoc) : Z :=
  doc_timestamp a - doc_timestamp b.

Definition combinedMessages (u : User) (c : ChatUser)
    (allMessages : list MessageDoc) : list MessageDoc :=
  JS.sort by_timestamp (JS.filter_indexed (legacy_filter u c) allMessages).

(** The inner [try]: the two legacy queries, one after the other; [None]
    when one of them fails (the second is not sent when the first
    fails). *)
Definition old_formats (u : User) (c : ChatUser)
    (response1 response2 : Response (list MessageDoc))
    : M State Effect (option (list MessageDoc)) :=
  perform (ApiGetMessages (user_id u)) ;;
  match response1 with
  | Failed => mret None
  | Ok data1 =>
      perform (ApiGetMessages (chat_id c)) ;;
      match response2 with
      | Failed => mret None
      | Ok data2 => mret (Some (combinedMessages u c (data1 ++ data2)))
      end
  end.

Definition formatMessage (u : option User) (msg : MessageDoc) : Message :=
  {| id := doc_id msg;
     text := doc_text msg;
     timestamp := toLocaleTimeString (doc_timestamp msg);
     sender := if is_user_id u (doc_userId msg) then me else other |}.

(** [fetchMessages] up to its first [await]. *)
Definition fetchMessages_request (chatId : string) : M State Effect unit :=
  modify (setLoading true) ;;
  perform (ApiGetMessages chatId).

(** [fetchMessages] from the answer of the first query on; [u] and [c] are
    the [user] and [selectedChat] of the render that called it. *)
Definition fetchMessages_resume (u : option User) (c : option ChatUser)
    (response response1 response2 : Response (list MessageDoc))
    : M State Effect unit :=
  match response with
  | Failed => perform ConsoleError
  | Ok data =>
      data' ←
        match (length data =? 0)%nat, c, u with
        | true, Some c, Some u =>
            (* If no messages found with new format, try old formats *)
            o ← old_formats u c response1 response2;
            mret (default data o)
        | _, _, _ => mret data
        end;
      modify (setMessages (fun _ => map (formatMessage u) data'))
  end ;;
  modify (setLoading false).

Definition fetchMessages (chatId : string)
    (response response1 response2 : Response (list MessageDoc))
    : M State Effect unit :=
  st ← get;
  fetchMessages_request chatId ;;
  fetchMessages_resume (user st) (selectedChat st)
    response response1 response2.

(** *** Selecting a conversation *)

Definition handleSelectChat (innerWidth : Z) (chat : ChatUser)
    : M State Effect unit :=
  modify (setSelectedChat (Some chat)) ;;
  if innerWidth <? 768 then modify (setShowSidebar false) else mret tt.

Definition handleBackToChats (innerWidth : Z) : M State Effect unit :=
  modify (setSelectedChat None) ;;
  if innerWidth <? 768 then modify (setShowSidebar true) else mret tt.

(** The effect that depends on [selectedChat] and [user], up to the
    registration of the socket listeners. *)
Definition selectedChat_effect (innerWidth : Z) : M State Effect unit :=
  st ← get;
  (* When user connects, emit userOnline *)
  match user st with
  | Some u => perform (EmitUserOnline (user_id u))
  | None => mret tt
  end ;;
  match selectedChat st, user st with
  | Some c, Some u =>
      (* Create consistent chat ID for both users *)
      let chatId := generateChatId (user_id u) (chat_id c) in
      fetchMessages_request chatId ;;
      perform (EmitJoinChat chatId) ;;
      (* Clear unread count for selected chat *)
      modify (setUnreadCounts (fun prev => <[chat_id c := 0%nat]> prev)) ;;
      (* On mobile, hide sidebar when chat is selected *)
      if innerWidth <? 768 then modify (setShowSidebar false) else mret tt
  | _, _ => mret tt
  end.

(** A click on a conversation of the list: the handler, then the effect of
    the render that follows. The effect depends on [selectedChat] and
    [user]: it runs again only when the click has changed the selection, and
    not when the conversation clicked is the one already open. *)
Definition select_conversation (innerWidth : Z) (chat : ChatUser)
    : M State Effect unit :=
  st ← get;
  handleSelectChat innerWidth chat ;;
  if decide (selectedChat st = Some chat) then mret tt
  else selectedChat_effect innerWidth.

(** *** Sending a message *)

(** [created] is the answer of the persistence call, the canonical id on
    success; [now] and [now'] are the two readings of the clock. *)
Definition handleSendMessage (created : Response string) (now now' : Z)
    : M State Effect unit :=
  st ← get;
  match negb (JS.truthy (JS.trim (message st))), selectedChat st, user st with
  | false, Some c, Some u =>
      (* Create the message via API with consistent chat ID *)
      let chatId := generateChatId (user_id u) (chat_id c) in
      perform (ApiCreateMessage chatId (message st)) ;;
      match created with
      | Ok response_id =>
          (* Add the message to the UI immediately from the API response *)
          let newMessage :=
            {| id := response_id;
               text := message st;
               timestamp := toLocaleTimeString now;
               sender := me |} in
          modify (setMessages (fun prev => prev ++ [newMessage])) ;;
          (* Update last message for this chat *)
          modify (setLastMessages (fun prev =>
            <[chat_id c := message st]> prev)) ;;
          modify (setMessage "") ;;
          (* Emit the socket event for other users *)
          perform (EmitSendMessage chatId (user_id u) (message st) now')
      | Failed => perform ConsoleError
      end
  | _, _, _ => mret tt
  end.

End Handlers.

End Chat.

(** ** The call session component *)

Module VideoCall.

Inductive CallStatus := incoming | outgoing | connected.

Record Props := {
  isVideoCall : bool;
  recipientId : option string;
  callStatus : CallStatus;
  onAcceptCall : bool;  (* whether the optional callback is given *)
  onRejectCall : bool
}.

(** A media track, named by the number the platform gave it. *)
Definition Track := nat.

Record MediaStream := { getTracks : list Track }.

(** What the component asks of a [RTCPeerConnection]. A connection is known
    by the calls it has received, in order. *)
Inductive PcCall :=
| AddTrack (t : Track)
| CreateOffer
| CreateAnswer
| SetLocalDescription (description : string)
| SetRemoteDescription (description : string)
| AddIceCandidate (candidate : string)
| Close.

#[global] Instance PcCall_eq_dec : EqDecision PcCall.
Proof. solve_decision. Defined.

(** The component and the part of the platform it acts on. The two refs
    outlive the renders; [peerConnectionRef] holds the position of the
    connection in [connections], where every connection ever constructed
    stays. *)
Record World := {
  props : Props;
  mounted : bool;
  callDuration : N;
  timer : bool;
  listening : bool;  (* offer, answer and ice-candidate listeners registered *)
  localStreamRef : option MediaStream;
  peerConnectionRef : option nat;
  connections : list (list PcCall);
  pendingMedia : nat;  (* calls of getUserMedia not settled yet *)
  acquired : list Track;  (* tracks that getUserMedia handed over *)
  stopped : list Track  (* tracks that were stopped *)
}.

Inductive Effect :=
| GetUserMedia (video : bool)
| NewRTCPeerConnection (i : nat)
| SocketOn (event : string)
| SocketOff (event : string)
| EmitAnswerCall (to : string)
| EmitRejectCall (to : string)
| EmitEndCall (to : string)
| EmitOffer (offer to : string)
| EmitAnswer (answer to : string)
| SetTimeoutCreateOffer
| ConsoleError
| Alert (text : string)
| OnEndCall
| OnAcceptCall
| OnRejectCall.

#[global] Instance Effect_eq_dec : EqDecision Effect.
Proof. solve_decision. Defined.

Definition setCallStatus (s : CallStatus) (w : World) : World :=
  {| props := {| isVideoCall := isVideoCall (props w);
                 recipientId := recipientId (props w);
                 callStatus := s;
                 onAcceptCall := onAcceptCall (props w);
                 onRejectCall := onRejectCall (props w) |};
     mounted := mounted w; callDuration := callDuration w; timer := timer w;
     listening := listening w; localStreamRef := localStreamRef w;
     peerConnectionRef := peerConnectionRef w; connections := connections w;
     pendingMedia := pendingMedia w; acquired := acquired w;
     stopped := stopped w |}.

Definition setMounted (b : bool) (w : World) : World :=
  {| props := props w; mounted := b; callDuration := callDuration w;
     timer := timer w; listening := listening w;
     localStreamRef := localStreamRef w;
     peerConnectionRef := peerConnectionRef w; connections := connections w;
     pendingMedia := pendingMedia w; acquired := acquired w;
     stopped := stopped w |}.

Definition setCallDuration (f : N -> N) (w : World) : World :=
  {| props := props w; mounted := mounted w;
     callDuration := f (callDuration w);
     timer := timer w; listening := listening w;
     localStreamRef := localStreamRef w;
     peerConnectionRef := peerConnectionRef w; connections := connections w;
     pendingMedia := pendingMedia w; acquired := acquired w;
     stopped := stopped w |}.

Definition setTimer (b : bool) (w : World) : World :=
  {| props := props w; mounted := mounted w; callDuration := callDuration w;
     timer := b; listening := listening w;
     localStreamRef := localStreamRef w;
     peerConnectionRef := peerConnectionRef w; connections := connections w;
     pendingMedia := pendingMedia w; acquired := acquired w;
     stopped := stopped w |}.

Definition setListening (b : bool) (w : World) : World :=
  {| props := props w; mounted := mounted w; callDuration := callDuration w;
     timer := timer w; listening := b;
     localStreamRef := localStreamRef w;
     peerConnectionRef := peerConnectionRef w; connections := connections w;
     pendingMedia := pendingMedia w; acquired := acquired w;
     stopped := stopped w |}.

Definition setLocalStreamRef (s : option MediaStream) (w : World) : World :=
  {| props := props w; mounted := mounted w; callDuration := callDuration w;
     timer := timer w; listening := listening w;
     localStreamRef := s;
     peerConnectionRef := peerConnectionRef w; connections := connections w;
     pendingMedia := pendingMedia w; acquired := acquired w;
     stopped := stopped w |}.

Definition setPeerConnectionRef (i : option nat) (w : World) : World :=
  {| props := props w; mounted := mounted w; callDuration := callDuration w;
     timer := timer w; listening := listening w;
     localStreamRef := localStreamRef w;
     peerConnectionRef := i; connections := connections w;
     pendingMedia := pendingMedia w; acquired := acquired w;
     stopped := stopped w |}.

Definition setConnections (f : list (list PcCall) -> list (list PcCall))
    (w : World) : World :=
  {| props := props w; mounted := mounted w; callDuration := callDuration w;
     timer := timer w; listening := listening w;
     localStreamRef := localStreamRef w;
     peerConnectionRef := peerConnectionRef w;
     connections := f (connections w);
     pendingMedia := pendingMedia w; acquired := acquired w;
     stopped := stopped w |}.

Definition setPendingMedia (f : nat -> nat) (w : World) : World :=
  {| props := props w; mounted := mounted w; callDuration := callDuration w;
     timer := timer w; listening := listening w;
     localStreamRef := localStreamRef w;
     peerConnectionRef := peerConnectionRef w; connections := connections w;
     pendingMedia := f (pendingMedia w); acquired := acquired w;
     stopped := stopped w |}.

Definition setAcquired (f : list Track -> list Track) (w : World) : World :=
  {| props := props w; mounted := mounted w; callDuration := callDuration w;
     timer := timer w; listening := listening w;
     localStreamRef := localStreamRef w;
     peerConnectionRef := peerConnectionRef w; connections := connections w;
     pendingMedia := pendingMedia w; acquired := f (acquired w);
     stopped := stopped w |}.

Definition setStopped (f : list Track -> list Track) (w : World) : World :=
  {| props := props w; mounted := mounted w; callDuration := callDuration w;
     timer := timer w; listening := listening w;
     localStreamRef := localStreamRef w;
     peerConnectionRef := peerConnectionRef w; connections := connections w;
     pendingMedia := pendingMedia w; acquired := acquired w;
     stopped := f (stopped w) |}.

(** *** The platform *)

(** A method call on the connection at position [i]. The store records
    that the component has made the call; whether the connection accepts it
    is modelled for [addTrack] only ([addTracks] below). *)
Definition pc_call (i : nat) (call : PcCall) : M World Effect unit :=
  modify (setConnections (alter (fun calls => calls ++ [call]) i)).

Definition is_closed (w : World) (i : nat) : bool :=
  match connections w !! i with
  | Some calls => bool_decide (Close ∈ calls)
  | None => false
  end.

(** [stream.getTracks().forEach(track => pc.addTrack(track, stream))].
    [addTrack] throws on a closed connection: the result is [false] when the
    loop was left by that exception. *)
Definition addTracks (i : nat) (stream : MediaStream) : M World Effect bool :=
  w ← get;
  match getTracks stream with
  | [] => mret true
  | _ :: _ =>
      if is_closed w i then mret false
      else
        modify (setConnections
                  (alter (fun calls => calls ++ map AddTrack (getTracks stream)) i)) ;;
        mret true
  end.

(** *** The component *)

(** [initializeMedia] up to its [await]. *)
Definition initializeMedia_request : M World Effect unit :=
  w ← get;
  perform (GetUserMedia (isVideoCall (props w))) ;;
  modify (setPendingMedia S).

(** [initializeMedia] once [getUserMedia] has given the stream, whose
    tracks are live from then on. *)
Definition initializeMedia_resolved (stream : MediaStream)
    : M World Effect unit :=
  modify (setPendingMedia pred) ;;
  modify (setAcquired (fun l => l ++ getTracks stream)) ;;
  modify (setLocalStreamRef (Some stream)) ;;
  (* Add stream to peer connection if it exists *)
  w ← get;
  match peerConnectionRef w with
  | Some i =>
      addTracks i stream ≫= fun added : bool =>
      if added then mret tt
      else
        perform ConsoleError ;;
        perform (Alert "Unable to access camera or microphone. Please check permissions.")
  | None => mret tt
  end.

(** [initializeMedia] once [getUserMedia] has refused: the [catch]. *)
Definition initializeMedia_rejected : M World Effect unit :=
  modify (setPendingMedia pred) ;;
  perform ConsoleError ;;
  perform (Alert "Unable to access camera or microphone. Please check permissions.").

Definition setupPeerConnection : M World Effect unit :=
  w ← get;
  let i := length (connections w) in
  perform (NewRTCPeerConnection i) ;;
  modify (setConnections (fun l => l ++ [[]])) ;;
  modify (setPeerConnectionRef (Some i)) ;;
  (* Add local stream if available *)
  match localStreamRef w with
  | Some stream => _ ← addTracks i stream; mret tt
  | None => mret tt
  end.

(** The body of the effect that depends on [callStatus]. *)
Definition effect : M World Effect unit :=
  w ← get;
  (* Only start timer for connected calls *)
  match callStatus (props w) with
  | connected => modify (setTimer true)
  | _ => mret tt
  end ;;
  (* Initialize media stream and WebRTC *)
  match callStatus (props w) with
  | connected | incoming => initializeMedia_request ;; setupPeerConnection
  | outgoing => mret tt
  end ;;
  (* Socket event listeners for WebRTC signaling *)
  perform (SocketOn "offer") ;;
  perform (SocketOn "answer") ;;
  perform (SocketOn "ice-candidate") ;;
  modify (setListening true).

(** What the effect returns: run when [callStatus] changes and when the
    component goes away. *)
Definition cleanup : M World Effect unit :=
  modify (setTimer false) ;;
  w ← get;
  (* Cleanup media streams and peer connection *)
  match localStreamRef w with
  | Some stream => modify (setStopped (fun l => l ++ getTracks stream))
  | None => mret tt
  end ;;
  match peerConnectionRef w with
  | Some i => pc_call i Close
  | None => mret tt
  end ;;
  perform (SocketOff "offer") ;;
  perform (SocketOff "answer") ;;
  perform (SocketOff "ice-candidate") ;;
  modify (setListening false).

(** [answer] is the description the connection creates. *)
Definition handleOffer (offer from answer : string) : M World Effect unit :=
  w ← get;
  match peerConnectionRef w with
  | None => mret tt
  | Some i =>
      pc_call i (SetRemoteDescription offer) ;;
      pc_call i CreateAnswer ;;
      pc_call i (SetLocalDescription answer) ;;
      perform (EmitAnswer answer from)
  end.

Definition handleAnswer (answer : string) : M World Effect unit :=
  w ← get;
  match peerConnectionRef w with
  | None => mret tt
  | Some i => pc_call i (SetRemoteDescription answer)
  end.

Definition handleIceCandidate (candidate : string) : M World Effect unit :=
  w ← get;
  match peerConnectionRef w with
  | None => mret tt
  | Some i => pc_call i (AddIceCandidate candidate)
  end.

(** [offer] is the description the connection creates. *)
Definition createOffer (offer : string) : M World Effect unit :=
  w ← get;
  match peerConnectionRef w, recipientId (props w) with
  | Some i, Some to =>
      pc_call i CreateOffer ;;
      pc_call i (SetLocalDescription offer) ;;
      perform (EmitOffer offer to)
  | _, _ => mret tt
  end.

(** [seconds] is a Number that holds a natural number. The result is
    given for the safe integers, on which [Math.floor(seconds / 60)],
    [seconds % 60] and [toString] are exact; it is [None] beyond them, where
    the code computes on doubles. *)
Definition formatDuration (seconds : N) : option string :=
  if JS.isSafeInteger seconds then
    let mins := (seconds / 60)%N in
    let secs := (seconds mod 60)%N in
    Some (JS.padStart 2 "0" (JS.Number_toString mins) +:+ ":" +:+
          JS.padStart 2 "0" (JS.Number_toString secs))
  else None.

Definition getStatusText (w : World) : option string :=
  match callStatus (props w) with
  | incoming => Some "Incoming call..."
  | outgoing => Some "Calling..."
  | connected => formatDuration (callDuration w)
  end.

Definition handleAcceptCall : M World Effect unit :=
  w ← get;
  match recipientId (props w) with
  | Some to =>
      perform (EmitAnswerCall to) ;;
      (* Create WebRTC offer after accepting *)
      perform SetTimeoutCreateOffer
  | None => mret tt
  end ;;
  if onAcceptCall (props w) then perform OnAcceptCall else mret tt.

Definition handleRejectCall : M World Effect unit :=
  w ← get;
  match recipientId (props w) with
  | Some to => perform (EmitRejectCall to)
  | None => mret tt
  end ;;
  if onRejectCall (props w) then perform OnRejectCall else perform OnEndCall.

Definition handleEndCall : M World Effect unit :=
  w ← get;
  match recipientId (props w) with
  | Some to => perform (EmitEndCall to)
  | None => mret tt
  end ;;
  perform OnEndCall.

(** *** What happens to a mounted component *)

Inductive Event :=
| StatusChange (s : CallStatus)  (* the parent passes another [callStatus] *)
| Unmount  (* the parent stops rendering the component *)
| MediaResolved (stream : MediaStream)
| MediaRejected
| Tick
| Offer (offer from answer : string)
| Answer (answer : string)
| IceCandidate (candidate : string)
| ClickAccept
| CreateOfferDue (offer : string)  (* the timeout set on accepting fires *)
| ClickRejectOrCancel
| ClickEnd.

Definition CallStatus_eqb (a b : CallStatus) : bool :=
  match a, b with
  | incoming, incoming | outgoing, outgoing | connected, connected => true
  | _, _ => false
  end.

Definition when (b : bool) (m : M World Effect unit) : M World Effect unit :=
  if b then m else mret tt.

Definition step (e : Event) : M World Effect unit :=
  w ← get;
  match e with
  | StatusChange s =>
      when (mounted w && negb (CallStatus_eqb s (callStatus (props w))))
        (cleanup ;; modify (setCallStatus s) ;; effect)
  | Unmount => when (mounted w) (cleanup ;; modify (setMounted false))
  | MediaResolved stream =>
      when (0 <? pendingMedia w)%nat (initializeMedia_resolved stream)
  | MediaRejected => when (0 <? pendingMedia w)%nat initializeMedia_rejected
  | Tick => when (timer w) (modify (setCallDuration N.succ))
  | Offer offer from answer => when (listening w) (handleOffer offer from answer)
  | Answer answer => when (listening w) (handleAnswer answer)
  | IceCandidate candidate => when (listening w) (handleIceCandidate candidate)
  | ClickAccept =>
      (* the accept button is shown for an incoming call *)
      when (mounted w && CallStatus_eqb (callStatus (props w)) incoming)
        handleAcceptCall
  | CreateOfferDue offer => createOffer offer
  | ClickRejectOrCancel =>
      (* the red button of an incoming and of an outgoing call *)
      when (mounted w && negb (CallStatus_eqb (callStatus (props w)) connected))
        handleRejectCall
  | ClickEnd =>
      (* the red button of a connected call *)
      when (mounted w && CallStatus_eqb (callStatus (props w)) connected)
        handleEndCall
  end.

Fixpoint run (events : list Event) : M World Effect unit :=
  match events with
  | [] => mret tt
  | e :: events' => step e ;; run events'
  end.

(** Before the first render. *)
Definition unmounted (p : Props) : World :=
  {| props := p; mounted := false; callDuration := 0%N; timer := false;
     listening := false; localStreamRef := None; peerConnectionRef := None;
     connections := []; pendingMedia := 0; acquired := []; stopped := [] |}.

(** The first render and its effect. *)
Definition mount : M World Effect unit :=
  modify (setMounted true) ;; effect.

(** A session: the component is mounted with [p], then [events] happen. *)
Definition session (p : Props) (events : list Event) : unit * World * list Effect :=
  (mount ;; run events) (unmounted p).

(** While the listeners are registered in a status that sets up a
    connection, the ref holds a connection that is not closed. *)
Definition connection_ready (w : World) : Prop :=
  listening w = true -> callStatus (props w) <> outgoing ->
  exists i calls,
    peerConnectionRef w = Some i
    /\ connections w !! i = Some calls
    /\ Close ∉ calls.

(** The tracks that are live: handed over and not stopped. *)
Definition live_tracks (w : World) : list Track :=
  filter (fun t => t ∉ stopped w) (acquired w).

(** The connections that are open. *)
Definition open_connections (w : World) : list (list PcCall) :=
  filter (fun calls => Close ∉ calls) (connections w).

End VideoCall.

(** ** What the specification says, in its own words *)

Module Spec.

Fixpoint zeros (k : nat) : string :=
  match k with
  | O => EmptyString
  | S k' => String "0" (zeros k')
  end.

(** A string left-padded with zeros to at least [k] characters. *)
Definition zero_padded (k : nat) (s : string) : string :=
  zeros (k - String.length s) +:+ s.

(** The decimal string of a natural number. *)
Definition decimal (n : N) : string := JS.Number_toString n.

(** Minutes, a colon, seconds; minutes are not wrapped. *)
Definition duration_text (s : N) : string :=
  zero_padded 2 (decimal (s / 60)) +:+ ":" +:+ zero_padded 2 (decimal (s mod 60)).

(** A stored message pairs the two participants when one of them is its
    [userId] and the other its [chatId], in either orientation. *)
Definition pairs (a b : string) (m : Chat.MessageDoc) : Prop :=
  (Chat.doc_userId m = a /\ Chat.doc_chatId m = b) \/
  (Chat.doc_userId m = b /\ Chat.doc_chatId m = a).

#[global] Instance pairs_dec a b m : Decision (pairs a b m).
Proof. unfold pairs. apply _. Defined.

(** The first occurrence of each message id, [seen] being the ids met so
    far. *)
Fixpoint first_occurrences (seen : list string) (l : list Chat.MessageDoc)
    : list Chat.MessageDoc :=
  match l with
  | [] => []
  | m :: l' =>
      if decide (Chat.doc_id m ∈ seen) then first_occurrences seen l'
      else m :: first_occurrences (Chat.doc_id m :: seen) l'
  end.

(** What is kept of the union of the two legacy histories. *)
Definition legacy_selection (a b : string) (union : list Chat.MessageDoc)
    : list Chat.MessageDoc :=
  filter (pairs a b) (first_occurrences [] union).

(** Ascending timestamps. *)
Definition ascending (l : list Chat.MessageDoc) : Prop :=
  Sorted (fun m m' => Chat.doc_timestamp m <= Chat.doc_timestamp m') l.

(** The call session is over: the component is gone, or it has asked its
    parent to end or reject the call. *)
Definition session_ended (r : unit * VideoCall.World * list VideoCall.Effect)
    : Prop :=
  VideoCall.mounted (state_after r) = false
  \/ VideoCall.OnEndCall ∈ effects_of r
  \/ VideoCall.OnRejectCall ∈ effects_of r.

(** A candidate has been applied: some connection was given it. *)
Definition candidate_applied (candidate : string) (w : VideoCall.World) : Prop :=
  exists calls,
    calls ∈ VideoCall.connections w /\ VideoCall.AddIceCandidate candidate ∈ calls.

(** How many times a message id occurs in the displayed sequence. *)
Definition displayed_times (i : string) (l : list Chat.Message) : nat :=
  length (filter (fun m => Chat.id m = i) l).

End Spec.

(** ** A concrete conversation: u1 is logged in and has the chat with u2
    open *)

Module Scenario.

Definition u1 : Chat.User := {| Chat.user_id := "u1"; Chat.username := "ann" |}.

Definition chat_with (i : string) : Chat.ChatUser :=
  {| Chat.chat_id := i; Chat.name := i; Chat.avatar := "";
     Chat.lastMessage := "Start a conversation"; Chat.chat_timestamp := "now";
     Chat.unread := 0; Chat.online := true |}.

Definition typing (text : string) : Chat.State :=
  {| Chat.user := Some u1; Chat.selectedChat := Some (chat_with "u2");
     Chat.message := text; Chat.messages := []; Chat.loading := false;
     Chat.showSidebar := true; Chat.unreadCounts := ∅;
     Chat.lastMessages := ∅ |}.

Definition relayed (i from text : string) : Chat.NewMessage :=
  {| Chat.new_id := Some i; Chat.new_userId := from;
     Chat.new_chatId := Chat.generateChatId "u1" from;
     Chat.new_text := text; Chat.new_timestamp := 0 |}.

Definition clock_text (t : Z) : string := "12:00".

(** u1 has two unread messages of u3. *)
Definition with_unread : Chat.State :=
  Chat.setUnreadCounts (fun _ => {["u3" := 2%nat]}) (typing "").

Definition doc (i from to : string) (t : Z) : Chat.MessageDoc :=
  {| Chat.doc_id := i; Chat.doc_userId := from; Chat.doc_chatId := to;
     Chat.doc_text := i; Chat.doc_timestamp := t |}.

(** The legacy history of u1 and the one of u2: they share the message a,
    and c belongs to another conversation. *)
Definition history_u1 : list Chat.MessageDoc :=
  [doc "a" "u1" "u2" 30; doc "c" "u1" "u9" 5].

Definition history_u2 : list Chat.MessageDoc :=
  [doc "b" "u2" "u1" 10; doc "a" "u1" "u2" 30].

Definition video_call (s : VideoCall.CallStatus) : VideoCall.Props :=
  {| VideoCall.isVideoCall := true; VideoCall.recipientId := Some "u2";
     VideoCall.callStatus := s; VideoCall.onAcceptCall := false;
     VideoCall.onRejectCall := false |}.

Definition camera_and_microphone : VideoCall.MediaStream :=
  {| VideoCall.getTracks := [0%nat; 1%nat] |}.

End Scenario.

(** ** The rest of the chat view: followed users and call control *)

Module ChatCalls.

Inductive CallType := video | audio.

Inductive ModalType := incoming | outgoing.

(** A user as the following list of the backend gives it. *)
Record Following := {
  following_id : string;
  following_username : string;
  following_isActive : option bool
}.

(** The payload of a [callUser] event; [from] may be absent. *)
Record CallData := {
  data_from : option string;
  data_name : string;
  data_callType : CallType
}.

(** The state of the chat view beside the one of the messages. An [Audio]
    object is known by its number; [listener_currentAudio] is [currentAudio]
    as the socket listeners see it, that is as it was in the render whose
    effect registered them. *)
Record State := {
  chat : Chat.State;
  followedUsers : list Chat.ChatUser;
  usersLoading : bool;
  showCall : bool;
  showCallModal : bool;
  callType : CallType;
  callModalType : ModalType;
  currentAudio : option nat;
  listener_currentAudio : option nat;
  incomingCallData : option CallData;
  audios : nat
}.

Inductive Effect :=
| OfChat (e : Chat.Effect)
| ApiGetFollowing
| ApiInitiateCall (userId : string) (type : CallType)
| EmitCallUser (userToCall from name : string) (type : CallType)
| EmitAnswerCall (to : string)
| EmitRejectCall (to : string)
| EmitEndCall (to : string)
| AudioPlayLoop (a : nat)
| AudioStop (a : nat)
| Alert (text : string)
| ConsoleError.

#[global] Instance CallType_eq_dec : EqDecision CallType.
Proof. solve_decision. Defined.

#[global] Instance ChatEffect_eq_dec : EqDecision Chat.Effect.
Proof. solve_decision. Defined.

#[global] Instance Effect_eq_dec : EqDecision Effect.
Proof. solve_decision. Defined.

Definition setChat (f : Chat.State -> Chat.State) (w : State) : State :=
  {| chat := f (chat w); followedUsers := followedUsers w;
     usersLoading := usersLoading w; showCall := showCall w;
     showCallModal := showCallModal w; callType := callType w;
     callModalType := callModalType w; currentAudio := currentAudio w;
     listener_currentAudio := listener_currentAudio w;
     incomingCallData := incomingCallData w; audios := audios w |}.

Definition setFollowedUsers (l : list Chat.ChatUser) (w : State) : State :=
  {| chat := chat w; followedUsers := l;
     usersLoading := usersLoading w; showCall := showCall w;
     showCallModal := showCallModal w; callType := callType w;
     callModalType := callModalType w; currentAudio := currentAudio w;
     listener_currentAudio := listener_currentAudio w;
     incomingCallData := incomingCallData w; audios := audios w |}.

Definition setUsersLoading (b : bool) (w : State) : State :=
  {| chat := chat w; followedUsers := followedUsers w;
     usersLoading := b; showCall := showCall w;
     showCallModal := showCallModal w; callType := callType w;
     callModalType := callModalType w; currentAudio := currentAudio w;
     listener_currentAudio := listener_currentAudio w;
     incomingCallData := incomingCallData w; audios := audios w |}.

Definition setShowCall (b : bool) (w : State) : State :=
  {| chat := chat w; followedUsers := followedUsers w;
     usersLoading := usersLoading w; showCall := b;
     showCallModal := showCallModal w; callType := callType w;
     callModalType := callModalType w; currentAudio := currentAudio w;
     listener_currentAudio := listener_currentAudio w;
     incomingCallData := incomingCallData w; audios := audios w |}.

Definition setShowCallModal (b : bool) (w : State) : State :=
  {| chat := chat w; followedUsers := followedUsers w;
     usersLoading := usersLoading w; showCall := showCall w;
     showCallModal := b; callType := callType w;
     callModalType := callModalType w; currentAudio := currentAudio w;
     listener_currentAudio := listener_currentAudio w;
     incomingCallData := incomingCallData w; audios := audios w |}.

Definition setCallType (t : CallType) (w : State) : State :=
  {| chat := chat w; followedUsers := followedUsers w;
     usersLoading := usersLoading w; showCall := showCall w;
     showCallModal := showCallModal w; callType := t;
     callModalType := callModalType w; currentAudio := currentAudio w;
     listener_currentAudio := listener_currentAudio w;
     incomingCallData := incomingCallData w; audios := audios w |}.

Definition setCallModalType (t : ModalType) (w : State) : State :=
  {| chat := chat w; followedUsers := followedUsers w;
     usersLoading := usersLoading w; showCall := showCall w;
     showCallModal := showCallModal w; callType := callType w;
     callModalType := t; currentAudio := currentAudio w;
     listener_currentAudio := listener_currentAudio w;
     incomingCallData := incomingCallData w; audios := audios w |}.

Definition setCurrentAudio (a : option nat) (w : State) : State :=
  {| chat := chat w; followedUsers := followedUsers w;
     usersLoading := usersLoading w; showCall := showCall w;
     showCallModal := showCallModal w; callType := callType w;
     callModalType := callModalType w; currentAudio := a;
     listener_currentAudio := listener_currentAudio w;
     incomingCallData := incomingCallData w; audios := audios w |}.

Definition setListenerCurrentAudio (a : option nat) (w : State) : State :=
  {| chat := chat w; followedUsers := followedUsers w;
     usersLoading := usersLoading w; showCall := showCall w;
     showCallModal := showCallModal w; callType := callType w;
     callModalType := callModalType w; currentAudio := currentAudio w;
     listener_currentAudio := a;
     incomingCallData := incomingCallData w; audios := audios w |}.

Definition setIncomingCallData (d : option CallData) (w : State) : State :=
  {| chat := chat w; followedUsers := followedUsers w;
     usersLoading := usersLoading w; showCall := showCall w;
     showCallModal := showCallModal w; callType := callType w;
     callModalType := callModalType w; currentAudio := currentAudio w;
     listener_currentAudio := listener_currentAudio w;
     incomingCallData := d; audios := audios w |}.

Definition setAudios (n : nat) (w : State) : State :=
  {| chat := chat w; followedUsers := followedUsers w;
     usersLoading := usersLoading w; showCall := showCall w;
     showCallModal := showCallModal w; callType := callType w;
     callModalType := callModalType w; currentAudio := currentAudio w;
     listener_currentAudio := listener_currentAudio w;
     incomingCallData := incomingCallData w; audios := n |}.

(** A handler of the messages part, run inside the whole view. *)
Definition of_chat {A} (m : M Chat.State Chat.Effect A) : M State Effect A :=
  fun w =>
    let '(a, c, t) := m (chat w) in
    (a, setChat (fun _ => c) w, map OfChat t).

(** *** Followed users *)

Section FollowedUsers.

(** [String.prototype.toUpperCase]. *)
Variable toUpperCase : string -> string.

(** [lastMessages[id] || 'Start a conversation'] *)
Definition lastMessage_or_default (lastMessages : gmap string string)
    (i : string) : string :=
  match lastMessages !! i with
  | Some t => if JS.truthy t then t else "Start a conversation"
  | None => "Start a conversation"
  end.

Definition chatUser_of (lastMessages : gmap string string)
    (unreadCounts : gmap string nat) (u : Following) : Chat.ChatUser :=
  {| Chat.chat_id := following_id u;
     Chat.name := following_username u;
     Chat.avatar := toUpperCase (JS.take 2 (following_username u));
     Chat.lastMessage := lastMessage_or_default lastMessages (following_id u);
     Chat.chat_timestamp := "now";
     Chat.unread := default 0%nat (unreadCounts !! following_id u);
     Chat.online := default false (following_isActive u) |}.

(** [fetchFollowedUsers]; [lastMessages], [unreadCounts] and [selectedChat]
    are the ones of the render that called it. *)
Definition fetchFollowedUsers (response : Response (list Following))
    : M State Effect unit :=
  w ← get;
  perform ApiGetFollowing ;;
  match response with
  | Ok data =>
      let chatUsers :=
        map (chatUser_of (Chat.lastMessages (chat w)) (Chat.unreadCounts (chat w)))
          data in
      modify (setFollowedUsers chatUsers) ;;
      match chatUsers, Chat.selectedChat (chat w) with
      | first :: _, None => modify (setChat (Chat.setSelectedChat (Some first)))
      | _, _ => mret tt
      end
  | Failed => perform ConsoleError
  end ;;
  modify (setUsersLoading false).

End FollowedUsers.

(** *** Starting a call *)

(** [api_ok] tells whether the call record was created. *)
Definition initiateCall (type : CallType) (api_ok : bool)
    : M State Effect unit :=
  w ← get;
  match Chat.selectedChat (chat w), Chat.user (chat w) with
  | Some c, Some u =>
      perform (ApiInitiateCall (Chat.chat_id c) type) ;;
      if api_ok then
        modify (setCallType type) ;;
        modify (setCallModalType outgoing) ;;
        modify (setShowCallModal true) ;;
        perform (EmitCallUser (Chat.chat_id c) (Chat.user_id u)
                   (Chat.username u) type)
      else perform ConsoleError
  | _, _ => mret tt
  end.

(** *** The socket listeners of the calls *)

(** [if (currentAudio) { pause; currentTime = 0; setCurrentAudio(null) }] *)
Definition stop_audio (a : option nat) : M State Effect unit :=
  match a with
  | Some a => perform (AudioStop a) ;; modify (setCurrentAudio None)
  | None => mret tt
  end.

Definition on_callUser (data : CallData) : M State Effect unit :=
  modify (setIncomingCallData (Some data)) ;;
  modify (setCallType (data_callType data)) ;;
  modify (setCallModalType incoming) ;;
  modify (setShowCallModal true) ;;
  (* Play ringing sound for incoming calls *)
  w ← get;
  perform (AudioPlayLoop (audios w)) ;;
  modify (setCurrentAudio (Some (audios w))) ;;
  modify (setAudios (S (audios w))).

Definition on_callAccepted : M State Effect unit :=
  w ← get;
  stop_audio (listener_currentAudio w) ;;
  modify (setShowCallModal false) ;;
  modify (setShowCall true).

Definition on_callRejected : M State Effect unit :=
  w ← get;
  stop_audio (listener_currentAudio w) ;;
  modify (setShowCallModal false).

Definition on_callEnded : M State Effect unit :=
  modify (setShowCall false).

Definition on_callFailed (message : string) : M State Effect unit :=
  modify (setShowCallModal false) ;;
  perform (Alert ("Call failed: " +:+ message)).

(** *** The callbacks given to the modal and to the call view *)

(** [incomingCallData?.from || selectedChat.id] *)
Definition other_user (w : State) (c : Chat.ChatUser) : string :=
  match incomingCallData w with
  | Some data =>
      match data_from data with
      | Some from => if JS.truthy from then from else Chat.chat_id c
      | None => Chat.chat_id c
      end
  | None => Chat.chat_id c
  end.

Definition onAccept (c : Chat.ChatUser) : M State Effect unit :=
  w ← get;
  stop_audio (currentAudio w) ;;
  (* Use the caller's ID from incoming call data *)
  perform (EmitAnswerCall (other_user w c)) ;;
  modify (setShowCallModal false) ;;
  modify (setShowCall true).

Definition onDecline (c : Chat.ChatUser) : M State Effect unit :=
  w ← get;
  stop_audio (currentAudio w) ;;
  perform (EmitRejectCall (other_user w c)) ;;
  modify (setShowCallModal false).

Definition onEndCall (c : Chat.ChatUser) : M State Effect unit :=
  w ← get;
  (* Emit endCall event to the other user *)
  perform (EmitEndCall (other_user w c)) ;;
  modify (setShowCall false).


(** *** What happens to the chat view *)

Inductive Event :=
| SocketCallUser (data : CallData)
| SocketCallAccepted
| SocketCallRejected
| SocketCallEnded
| SocketCallFailed (message : string)
| ClickCall (type : CallType) (api_ok : bool)
| ClickAccept
| ClickDecline
| HangUp  (* the call view calls [onEndCall] *)
| SelectChat (innerWidth : Z) (c : Chat.ChatUser)
| BackToChats (innerWidth : Z).

(** The effect on [selectedChat] runs again when the selection has changed,
    and its listeners then see the current audio. *)
Definition selection_effect (innerWidth : Z) : M State Effect unit :=
  of_chat (Chat.selectedChat_effect innerWidth) ;;
  w ← get;
  modify (setListenerCurrentAudio (currentAudio w)).

Definition step (e : Event) : M State Effect unit :=
  w ← get;
  match e with
  | SocketCallUser data => on_callUser data
  | SocketCallAccepted => on_callAccepted
  | SocketCallRejected => on_callRejected
  | SocketCallEnded => on_callEnded
  | SocketCallFailed message => on_callFailed message
  | ClickCall type api_ok =>
      (* the buttons are in the header of the selected chat *)
      match Chat.selectedChat (chat w) with
      | Some _ => initiateCall type api_ok
      | None => mret tt
      end
  | ClickAccept =>
      (* the modal is rendered when [showCallModal && selectedChat] *)
      match showCallModal w, Chat.selectedChat (chat w) with
      | true, Some c => onAccept c
      | _, _ => mret tt
      end
  | ClickDecline =>
      match showCallModal w, Chat.selectedChat (chat w) with
      | true, Some c => onDecline c
      | _, _ => mret tt
      end
  | HangUp =>
      (* the call view is rendered when [showCall && selectedChat] *)
      match showCall w, Chat.selectedChat (chat w) with
      | true, Some c => onEndCall c
      | _, _ => mret tt
      end
  | SelectChat innerWidth c =>
      if decide (Chat.selectedChat (chat w) = Some c)
      then of_chat (Chat.handleSelectChat innerWidth c)
      else
        of_chat (Chat.handleSelectChat innerWidth c) ;;
        selection_effect innerWidth
  | BackToChats innerWidth =>
      match Chat.selectedChat (chat w) with
      | Some _ =>
          of_chat (Chat.handleBackToChats innerWidth) ;;
          selection_effect innerWidth
      | None => of_chat (Chat.handleBackToChats innerWidth)
      end
  end.

Fixpoint run (events : list Event) : M State Effect unit :=
  match events with
  | [] => mret tt
  | e :: events' => step e ;; run events'
  end.

(** The chat view once mounted on the messages state [c]. *)
Definition mounted_on (c : Chat.State) : State :=
  {| chat := c; followedUsers := []; usersLoading := true; showCall := false;
     showCallModal := false; callType := video; callModalType := outgoing;
     currentAudio := None; listener_currentAudio := None;
     incomingCallData := None; audios := 0 |}.

(** The users to which an answer, a rejection or an end of call is sent. *)
Definition addressee (e : Effect) : option string :=
  match e with
  | EmitAnswerCall to | EmitRejectCall to | EmitEndCall to => Some to
  | _ => None
  end.

End ChatCalls.

(** ** The buttons of the call view that mute the camera and the
    microphone *)

Module Controls.

Inductive Kind := video | audio.

(** A [MediaStreamTrack]: its kind and its [enabled] flag. *)
Record Track := { kind : Kind; enabled : bool }.

Record State := {
  isVideoEnabled : bool;
  isAudioEnabled : bool;
  localStreamRef : option (list Track)
}.

Definition Kind_eqb (a b : Kind) : bool :=
  match a, b with
  | video, video | audio, audio => true
  | _, _ => false
  end.

(** [stream.getVideoTracks()] and [stream.getAudioTracks()]. *)
Definition getTracksOf (k : Kind) (stream : list Track) : list Track :=
  List.filter (fun t => Kind_eqb (kind t) k) stream.

(** [getVideoTracks()[0].enabled = b], when there is such a track: the
    first track of kind [k] of the stream is the one that changes. *)
Fixpoint enable_first (k : Kind) (b : bool) (stream : list Track) : list Track :=
  match stream with
  | [] => []
  | t :: stream' =>
      if Kind_eqb (kind t) k then {| kind := kind t; enabled := b |} :: stream'
      else t :: enable_first k b stream'
  end.

Definition toggleVideo (st : State) : State :=
  {| isVideoEnabled := negb (isVideoEnabled st);
     isAudioEnabled := isAudioEnabled st;
     localStreamRef :=
       match localStreamRef st with
       | Some stream => Some (enable_first video (negb (isVideoEnabled st)) stream)
       | None => None
       end |}.

Definition toggleAudio (st : State) : State :=
  {| isVideoEnabled := isVideoEnabled st;
     isAudioEnabled := negb (isAudioEnabled st);
     localStreamRef :=
       match localStreamRef st with
       | Some stream => Some (enable_first audio (negb (isAudioEnabled st)) stream)
       | None => None
       end |}.

(** The state of the buttons at the first render. *)
Definition initial (isVideoCall : bool) : State :=
  {| isVideoEnabled := isVideoCall; isAudioEnabled := true;
     localStreamRef := None |}.

(** [enabled] of the first track of a kind, if there is one. *)
Definition first_enabled (k : Kind) (st : State) : option bool :=
  match localStreamRef st with
  | Some stream => enabled <$> head (getTracksOf k stream)
  | None => None
  end.

End Controls.

(** ** Further notions used to state properties *)

Module More.

Fixpoint has_underscore (s : string) : bool :=
  match s with
  | EmptyString => false
  | String c s' => Ascii.eqb c "_" || has_underscore s'
  end.

(** Relayed events, one after the other; the clock reads [now] for each. *)
Fixpoint receive_all (toLocaleTimeString : Z -> string)
    (events : list (N * Chat.NewMessage)) : M Chat.State Chat.Effect unit :=
  match events with
  | [] => mret tt
  | (now, ev) :: events' =>
      Chat.receiveMessage toLocaleTimeString now ev ;;
      receive_all toLocaleTimeString events'
  end.

(** What reaches the display of a conversation, in any order: the user
    types into the input, sends what is typed (the persistence call answers
    [created]), or a relayed event arrives. A send stands at the moment the
    persistence call answers, which is when the handler changes the
    display. *)
Inductive Delivery :=
| Typed (text : string)
| Sent (created : Response string) (now now' : Z)
| Relayed (now : N) (ev : Chat.NewMessage).

Definition deliver (toLocaleTimeString : Z -> string) (d : Delivery)
    : M Chat.State Chat.Effect unit :=
  match d with
  | Typed text => modify (Chat.setMessage text)
  | Sent created now now' =>
      Chat.handleSendMessage toLocaleTimeString created now now'
  | Relayed now ev => Chat.receiveMessage toLocaleTimeString now ev
  end.

Fixpoint deliver_all (toLocaleTimeString : Z -> string) (ds : list Delivery)
    : M Chat.State Chat.Effect unit :=
  match ds with
  | [] => mret tt
  | d :: ds' => deliver toLocaleTimeString d ;; deliver_all toLocaleTimeString ds'
  end.

(** The persistence call answers the send with the id [i]. *)
Definition answered (i : string) (d : Delivery) : Prop :=
  match d with
  | Sent (Ok j) _ _ => j = i
  | _ => False
  end.

(** The relayed event carries the id [i]. *)
Definition carries (i : string) (d : Delivery) : Prop :=
  match d with
  | Relayed _ ev => Chat.new_id ev = Some i
  | _ => False
  end.

(** The relayed event would be displayed under the id [i]: it carries [i],
    or it carries no id and the clock reads [i]. *)
Definition displayed_as (i : string) (d : Delivery) : Prop :=
  match d with
  | Relayed now ev => Chat.id_or_now now ev = i
  | _ => False
  end.

(** The relayed event is one of the user [u]. *)
Definition of_user (u : option Chat.User) (d : Delivery) : Prop :=
  match d with
  | Relayed _ ev => Chat.is_user_id u (Chat.new_userId ev) = true
  | _ => False
  end.

(** The event carries an id that is not the empty string. *)
Definition has_id (ev : Chat.NewMessage) : Prop :=
  exists i, Chat.new_id ev = Some i /\ i <> "".

(** How many requests for messages a handler has sent. *)
Definition requests (t : list Chat.Effect) : list string :=
  omap (fun e => match e with Chat.ApiGetMessages c => Some c | _ => None end) t.

(** Nothing is in flight when [e] is a change of status or the unmount. *)
Definition calm_at (e : VideoCall.Event) (w : VideoCall.World) : Prop :=
  match e with
  | VideoCall.StatusChange _ | VideoCall.Unmount =>
      VideoCall.pendingMedia w = 0%nat
  | _ => True
  end.

(** The schedule is calm: whenever the status changes or the component goes
    away, no acquisition of media is in flight. *)
Fixpoint calm (events : list VideoCall.Event) (w : VideoCall.World) : Prop :=
  match events with
  | [] => True
  | e :: events' => calm_at e w /\ calm events' (state_after (VideoCall.step e w))
  end.

(** Every track handed over is stopped or belongs to the stream that the
    mounted component holds, and then nothing is in flight; at most one
    acquisition is in flight, and only for a mounted component. *)
Definition tracks_held (w : VideoCall.World) : Prop :=
  (VideoCall.pendingMedia w <= 1)%nat
  /\ ((0 < VideoCall.pendingMedia w)%nat -> VideoCall.mounted w = true)
  /\ forall t, t ∈ VideoCall.acquired w ->
       t ∈ VideoCall.stopped w
       \/ (VideoCall.pendingMedia w = 0%nat /\ VideoCall.mounted w = true
           /\ exists s, VideoCall.localStreamRef w = Some s
                        /\ t ∈ VideoCall.getTracks s).

(** All connections but the last are closed, the ref holds the last, and
    the last is closed too when the component is gone. *)
Definition one_connection (w : VideoCall.World) : Prop :=
  (VideoCall.connections w = [] /\ VideoCall.peerConnectionRef w = None)
  \/ exists old cur,
       VideoCall.connections w = old ++ [cur]
       /\ Forall (fun calls => VideoCall.Close ∈ calls) old
       /\ VideoCall.peerConnectionRef w = Some (length old)
       /\ (VideoCall.mounted w = false -> VideoCall.Close ∈ cur).

(** The listeners are registered exactly while the component is mounted,
    and the timer runs exactly while it is mounted and connected. *)
Definition listeners_paired (w : VideoCall.World) : Prop :=
  VideoCall.listening w = VideoCall.mounted w
  /\ VideoCall.timer w =
       VideoCall.mounted w &&
       VideoCall.CallStatus_eqb (VideoCall.callStatus (VideoCall.props w))
         VideoCall.connected.

(** How many times the listener of a socket event was registered, and how
    many times it was removed. *)
Definition registrations (event : string) (t : list VideoCall.Effect) : nat :=
  length (List.filter
            (fun e => match e with
                      | VideoCall.SocketOn x => String.eqb x event
                      | _ => false
                      end) t).

Definition removals (event : string) (t : list VideoCall.Effect) : nat :=
  length (List.filter
            (fun e => match e with
                      | VideoCall.SocketOff x => String.eqb x event
                      | _ => false
                      end) t).

(** The three events of the negotiation. *)
Definition signaling_events : list string := ["offer"; "answer"; "ice-candidate"].

(** What reaches the component through a subscription of its effect: the
    interval and the three socket events. *)
Definition by_subscription (e : VideoCall.Event) : bool :=
  match e with
  | VideoCall.Tick | VideoCall.Offer _ _ _ | VideoCall.Answer _
  | VideoCall.IceCandidate _ => true
  | _ => false
  end.


End More.

(** * Properties *)

(** ** Strings and sorting *)

Lemma string_lt_irrefl x : JS.string_lt x x = false.
Proof.
  unfold JS.string_lt.
  destruct (String.compare x x) eqn:E; try reflexivity.
  pose proof (String.compare_antisym x x) as H. rewrite E in H. discriminate.
Qed.

Lemma string_lt_asym x y : JS.string_lt x y = true -> JS.string_lt y x = false.
Proof.
  unfold JS.string_lt. rewrite (String.compare_antisym x y).
  destruct (String.compare y x); simpl; congruence.
Qed.

Lemma string_lt_total x y :
  JS.string_lt x y = false -> JS.string_lt y x = false -> x = y.
Proof.
  unfold JS.string_lt. rewrite (String.compare_antisym x y).
  destruct (String.compare y x) eqn:E; simpl; try congruence.
  intros _ _. symmetry. now apply String.compare_eq_iff.
Qed.

Lemma sort_pair x y :
  JS.sort JS.default_compare [x; y] =
  if JS.string_lt y x then [y; x] else [x; y].
Proof.
  unfold JS.sort, JS.default_compare. simpl.
  destruct (JS.string_lt x y) eqn:Hxy.
  - rewrite (string_lt_asym _ _ Hxy). reflexivity.
  - destruct (JS.string_lt y x); reflexivity.
Qed.

(** C3. The pairing identifier of a conversation does not depend on the
    order in which the two user ids are given: [generateChatId a b] and
    [generateChatId b a] are the same string. *)
Theorem generateChatId_comm (a b : string) :
  Chat.generateChatId a b = Chat.generateChatId b a.
Proof.
  unfold Chat.generateChatId. rewrite !sort_pair.
  destruct (JS.string_lt b a) eqn:Hba.
  - now rewrite (string_lt_asym _ _ Hba).
  - destruct (JS.string_lt a b) eqn:Hab; [reflexivity|].
    now rewrite (string_lt_total _ _ Hab Hba).
Qed.

Example generateChatId_u2_u1 : Chat.generateChatId "u2" "u1" = "u1_u2".
Proof. reflexivity. Qed.

(** ** Call duration *)

Lemma filler_zeros fuel n : (n <= fuel)%nat -> JS.filler fuel n "0" = Spec.zeros n.
Proof.
  revert n. induction fuel as [|fuel IH]; intros n Hn.
  - now replace n with 0%nat by lia.
  - destruct n as [|[|n]]; try reflexivity.
    cbn [JS.filler String.length Nat.leb]. cbn [Spec.zeros].
    rewrite IH by (simpl; lia).
    replace (S (S n) - 1)%nat with (S n) by lia. reflexivity.
Qed.

Lemma padStart_zero_padded k s : JS.padStart k "0" s = Spec.zero_padded k s.
Proof.
  unfold JS.padStart, Spec.zero_padded.
  destruct (Nat.leb_spec k (String.length s)) as [Hle|Hlt].
  - now replace (k - String.length s)%nat with 0%nat by lia.
  - cbn [String.eqb]. now rewrite filler_zeros.
Qed.

Lemma decimal_reads_back n :
  NilZero.uint_of_string (Spec.decimal n) = Some (N.to_uint n).
Proof.
  unfold Spec.decimal, JS.Number_toString. apply NilZero.usu.
  destruct n as [|p]; [discriminate|]. simpl.
  intros H. pose proof (DecimalPos.Unsigned.to_uint_nonnil p). contradiction.
Qed.

(** The decimal string of [n] denotes [n]. *)
Lemma decimal_value n :
  N.of_uint <$> NilZero.uint_of_string (Spec.decimal n) = Some n.
Proof. rewrite decimal_reads_back. cbn. now rewrite DecimalN.Unsigned.of_to. Qed.

Lemma decimal_below_sixty n :
  (n < 60)%N ->
  let l := String.length (Spec.decimal n) in (1 <= l <= 2)%nat.
Proof.
  intros Hn. rewrite <- (N2Nat.id n).
  assert (Hk : (N.to_nat n < 60)%nat) by lia.
  revert Hk. generalize (N.to_nat n) as k. intros k Hk.
  do 60 (destruct k as [|k]; [vm_compute; lia|]). lia.
Qed.

Lemma zeros_length k : String.length (Spec.zeros k) = k.
Proof. induction k as [|k IH]; [reflexivity|]. cbn. now rewrite IH. Qed.

Lemma append_length (s t : string) :
  String.length (s +:+ t) = (String.length s + String.length t)%nat.
Proof.
  induction s as [|c s IH]; [reflexivity|].
  change (String c s +:+ t) with (String c (s +:+ t)).
  cbn [String.length]. now rewrite IH.
Qed.

Lemma zero_padded_length k s :
  String.length (Spec.zero_padded k s) = Nat.max k (String.length s).
Proof. unfold Spec.zero_padded. rewrite append_length, zeros_length. lia. Qed.

(** The seconds field always has exactly two characters. *)
Lemma seconds_field_length (s : N) :
  String.length (Spec.zero_padded 2 (Spec.decimal (s mod 60))) = 2%nat.
Proof.
  rewrite zero_padded_length.
  pose proof (decimal_below_sixty (s mod 60)) as H. cbv zeta in H.
  assert (s mod 60 < 60)%N by (apply N.mod_lt; discriminate). lia.
Qed.

(** C10. For every natural number [s] that a Number holds exactly (up to
    [Number.MAX_SAFE_INTEGER]), [formatDuration s] is the decimal string of
    [s div 60], left-padded with zeros to at least two characters, a colon,
    and the decimal string of [s mod 60] left-padded to two characters (that
    field is always exactly two characters long, the field of the minutes at
    least two); the two decimal strings read back as [s div 60] and
    [s mod 60]. Minutes are not wrapped at 60: 3600 seconds are shown as
    60:00, and not as 1:00:00. *)
Theorem formatDuration_spec (s : N)
    (Hsafe : (s <= JS.MAX_SAFE_INTEGER)%N) :
  VideoCall.formatDuration s = Some (Spec.duration_text s)
  /\ N.of_uint <$> NilZero.uint_of_string (Spec.decimal (s / 60)) = Some (s / 60)%N
  /\ N.of_uint <$> NilZero.uint_of_string (Spec.decimal (s mod 60)) =
       Some (s mod 60)%N
  /\ String.length (Spec.zero_padded 2 (Spec.decimal (s mod 60))) = 2%nat
  /\ (2 <= String.length (Spec.zero_padded 2 (Spec.decimal (s / 60))))%nat
  /\ VideoCall.formatDuration 3600 = Some "60:00"
  /\ VideoCall.formatDuration 3600 <> Some "1:00:00".
Proof.
  split; [|split; [|split; [|split; [|split; [|split]]]]].
  - unfold VideoCall.formatDuration, Spec.duration_text, JS.isSafeInteger.
    apply N.leb_le in Hsafe. rewrite Hsafe.
    now rewrite !padStart_zero_padded.
  - apply decimal_value.
  - apply decimal_value.
  - apply seconds_field_length.
  - rewrite zero_padded_length. lia.
  - reflexivity.
  - discriminate.
Qed.

Example formatDuration_examples :
  VideoCall.formatDuration 0 = Some "00:00"
  /\ VideoCall.formatDuration 59 = Some "00:59"
  /\ VideoCall.formatDuration 61 = Some "01:01"
  /\ VideoCall.formatDuration 5999 = Some "99:59"
  /\ VideoCall.formatDuration 6000 = Some "100:00"
  /\ VideoCall.formatDuration JS.MAX_SAFE_INTEGER = Some "150119987579016:31"
  /\ VideoCall.formatDuration (JS.MAX_SAFE_INTEGER + 1) = None.
Proof. repeat split. Qed.

(** ** Running a handler *)

Ltac run_handler :=
  unfold effects_of, state_after;
  repeat (unfold mbind, M_bind, bind, mret, M_ret, ret, get, modify, perform;
          cbn [fst snd]).

(** ** Handlers in sequence *)

Section HandlerFacts.

Context {S E : Type}.

Lemma bind_state {A B} (m : M S E A) (k : A -> M S E B) (s : S) :
  state_after ((m ≫= k) s) = state_after (k (fst (fst (m s))) (state_after (m s))).
Proof.
  unfold state_after, mbind, M_bind, bind.
  destruct (m s) as [[a s1] t1]. cbn. now destruct (k a s1) as [[b s2] t2].
Qed.

Lemma bind_effects {A B} (m : M S E A) (k : A -> M S E B) (s : S) :
  effects_of ((m ≫= k) s) =
  effects_of (m s) ++ effects_of (k (fst (fst (m s))) (state_after (m s))).
Proof.
  unfold effects_of, state_after, mbind, M_bind, bind.
  destruct (m s) as [[a s1] t1]. cbn. now destruct (k a s1) as [[b s2] t2].
Qed.

End HandlerFacts.

Section ChatFacts.

Variable toLocaleTimeString : Z -> string.

(** *** Sending *)

Lemma handleSendMessage_run st u c created now now' :
  Chat.user st = Some u ->
  Chat.selectedChat st = Some c ->
  JS.trim (Chat.message st) <> "" ->
  Chat.handleSendMessage toLocaleTimeString created now now' st =
    let chatId := Chat.generateChatId (Chat.user_id u) (Chat.chat_id c) in
    match created with
    | Ok i =>
        (tt,
         Chat.setMessage ""
           (Chat.setLastMessages
              (fun prev => <[Chat.chat_id c := Chat.message st]> prev)
              (Chat.setMessages
                 (fun prev => prev ++
                    [{| Chat.id := i; Chat.text := Chat.message st;
                        Chat.timestamp := toLocaleTimeString now;
                        Chat.sender := Chat.me |}]) st)),
         [Chat.ApiCreateMessage chatId (Chat.message st);
          Chat.EmitSendMessage chatId (Chat.user_id u) (Chat.message st) now'])
    | Failed =>
        (tt, st, [Chat.ApiCreateMessage chatId (Chat.message st);
                  Chat.ConsoleError])
    end.
Proof.
  intros Hu Hc Hm. unfold Chat.handleSendMessage. run_handler.
  rewrite Hu, Hc.
  assert (Ht : JS.truthy (JS.trim (Chat.message st)) = true).
  { unfold JS.truthy. apply negb_true_iff. now apply String.eqb_neq. }
  rewrite Ht. cbn [negb].
  destruct created; reflexivity.
Qed.

Lemma handleSendMessage_blank st created now now' :
  JS.trim (Chat.message st) = "" ->
  Chat.handleSendMessage toLocaleTimeString created now now' st = (tt, st, []).
Proof.
  intros Hm. unfold Chat.handleSendMessage. run_handler.
  unfold JS.truthy. rewrite Hm. reflexivity.
Qed.

(** C7. Sending a message first asks the backend to persist it, and only
    the answer, which carries the canonical id, lets it be displayed (under
    that id, at the end of the sequence) and broadcast. When the persistence
    call fails the state is left as it was: nothing is displayed, nothing is
    broadcast, and the request is not sent a second time. *)
Theorem sending_persists_then_displays st u c
    (Hu : Chat.user st = Some u)
    (Hc : Chat.selectedChat st = Some c)
    (Hm : JS.trim (Chat.message st) <> "") :
  let chatId := Chat.generateChatId (Chat.user_id u) (Chat.chat_id c) in
  (forall i now now',
     let r := Chat.handleSendMessage toLocaleTimeString (Ok i) now now' st in
     effects_of r =
       [Chat.ApiCreateMessage chatId (Chat.message st);
        Chat.EmitSendMessage chatId (Chat.user_id u) (Chat.message st) now']
     /\ Chat.messages (state_after r) =
          Chat.messages st ++
            [{| Chat.id := i; Chat.text := Chat.message st;
                Chat.timestamp := toLocaleTimeString now;
                Chat.sender := Chat.me |}])
  /\ (forall now now',
        let r := Chat.handleSendMessage toLocaleTimeString Failed now now' st in
        state_after r = st
        /\ Chat.messages (state_after r) = Chat.messages st
        /\ effects_of r =
             [Chat.ApiCreateMessage chatId (Chat.message st); Chat.ConsoleError]).
Proof.
  intros chatId. split.
  - intros i now now' r. subst r.
    rewrite (handleSendMessage_run st u c (Ok i) now now' Hu Hc Hm).
    split; reflexivity.
  - intros now now' r. subst r.
    rewrite (handleSendMessage_run st u c Failed now now' Hu Hc Hm).
    repeat split; reflexivity.
Qed.

(** *** Selecting a conversation *)

(** A click on the conversation that is already open changes the
    selection in nothing, so that the effect does not run again: nothing is
    requested or emitted, and no counter is touched. *)
Lemma reselecting_runs_no_effect st innerWidth chat :
  Chat.selectedChat st = Some chat ->
  let r := Chat.select_conversation innerWidth chat st in
  effects_of r = []
  /\ Chat.selectedChat (state_after r) = Some chat
  /\ Chat.unreadCounts (state_after r) = Chat.unreadCounts st
  /\ Chat.messages (state_after r) = Chat.messages st
  /\ Chat.loading (state_after r) = Chat.loading st.
Proof.
  intros Hc r. subst r.
  unfold Chat.select_conversation, Chat.handleSelectChat.
  destruct (innerWidth <? 768) eqn:Hw; run_handler; cbn;
    destruct (decide (Chat.selectedChat st = Some chat)); try contradiction;
    repeat split.
Qed.

(** C8. Selecting a conversation (another one than the one that is open),
    with a user logged in, recomputes the pairing identifier from the two
    ids, requests the history of that identifier (and joins its room), and
    sets the unread counter of the selected conversation to zero, leaving the
    other counters as they were. *)
Theorem select_conversation_resets_unread st u innerWidth chat
    (Hu : Chat.user st = Some u)
    (Hswitch : Chat.selectedChat st <> Some chat) :
  let r := Chat.select_conversation innerWidth chat st in
  let chatId := Chat.generateChatId (Chat.user_id u) (Chat.chat_id chat) in
  Chat.selectedChat (state_after r) = Some chat
  /\ Chat.unreadCounts (state_after r) !! Chat.chat_id chat = Some 0%nat
  /\ (forall k, k <> Chat.chat_id chat ->
        Chat.unreadCounts (state_after r) !! k = Chat.unreadCounts st !! k)
  /\ effects_of r =
       [Chat.EmitUserOnline (Chat.user_id u);
        Chat.ApiGetMessages chatId;
        Chat.EmitJoinChat chatId]
  /\ Chat.loading (state_after r) = true.
Proof.
  intros r chatId. subst r chatId.
  unfold Chat.select_conversation, Chat.handleSelectChat,
    Chat.selectedChat_effect, Chat.fetchMessages_request.
  destruct (innerWidth <? 768) eqn:Hw; run_handler; cbn;
    (destruct (decide (Chat.selectedChat st = Some chat)); [contradiction|]);
    run_handler; cbn; rewrite Hu; cbn; rewrite ?Hw; cbn;
    (split; [reflexivity|]); (split; [apply lookup_insert_eq|]);
    (split; [intros k Hk; now apply lookup_insert_ne|]);
    split; reflexivity.
Qed.

(** *** Receiving *)

Lemma receiveMessage_own st ev now :
  Chat.is_user_id (Chat.user st) (Chat.new_userId ev) = true ->
  Chat.receiveMessage toLocaleTimeString now ev st = (tt, st, []).
Proof.
  intros H. unfold Chat.receiveMessage. run_handler. rewrite H. reflexivity.
Qed.

Lemma receiveMessage_known st ev now :
  Chat.is_user_id (Chat.user st) (Chat.new_userId ev) = false ->
  JS.some (Chat.same_id ev) (Chat.messages st) = true ->
  Chat.receiveMessage toLocaleTimeString now ev st = (tt, st, [Chat.PlayMessageSound]).
Proof.
  intros H1 H2. unfold Chat.receiveMessage. run_handler.
  rewrite H1, H2. reflexivity.
Qed.


Lemma receiveMessage_new st ev now :
  Chat.is_user_id (Chat.user st) (Chat.new_userId ev) = false ->
  JS.some (Chat.same_id ev) (Chat.messages st) = false ->
  Chat.receiveMessage toLocaleTimeString now ev st =
    (tt,
     Chat.setMessages (fun prev => prev ++ [Chat.formattedMessage toLocaleTimeString now ev])
       (Chat.setLastMessages
          (fun prev => <[Chat.new_userId ev := Chat.new_text ev]> prev)
          (if Chat.is_selected (Chat.selectedChat st) (Chat.new_userId ev)
           then st
           else Chat.setUnreadCounts (fun prev =>
                  <[Chat.new_userId ev :=
                      (default 0%nat (prev !! Chat.new_userId ev) + 1)%nat]> prev)
                  st)),
     [Chat.PlayMessageSound]).
Proof.
  intros H1 H2. unfold Chat.receiveMessage. run_handler.
  rewrite H1, H2. cbn [negb].
  destruct (Chat.is_selected _ _); reflexivity.
Qed.

Lemma displayed_times_app i l l' :
  Spec.displayed_times i (l ++ l') =
  (Spec.displayed_times i l + Spec.displayed_times i l')%nat.
Proof. unfold Spec.displayed_times. now rewrite filter_app, length_app. Qed.

Lemma displayed_times_one i m :
  Chat.id m = i -> Spec.displayed_times i [m] = 1%nat.
Proof.
  intros H. unfold Spec.displayed_times. cbn.
  destruct (decide (Chat.id m = i)); [reflexivity | contradiction].
Qed.

Lemma some_same_id ev i l :
  Chat.new_id ev = Some i ->
  JS.some (Chat.same_id ev) l = negb (Spec.displayed_times i l =? 0)%nat.
Proof.
  intros Hi. unfold JS.some, Chat.same_id, Spec.displayed_times. rewrite Hi.
  induction l as [|m l IH]; [reflexivity|].
  cbn [existsb]. rewrite filter_cons.
  destruct (decide (Chat.id m = i)) as [He|Hne].
  - apply String.eqb_eq in He. rewrite He. reflexivity.
  - apply String.eqb_neq in Hne. rewrite Hne. exact IH.
Qed.

Lemma receiveMessage_user st ev now :
  Chat.user (state_after (Chat.receiveMessage toLocaleTimeString now ev st)) = Chat.user st.
Proof.
  destruct (Chat.is_user_id (Chat.user st) (Chat.new_userId ev)) eqn:H1.
  - now rewrite receiveMessage_own.
  - destruct (JS.some (Chat.same_id ev) (Chat.messages st)) eqn:H2.
    + now rewrite receiveMessage_known.
    + rewrite receiveMessage_new by assumption.
      unfold state_after. cbn. now destruct (Chat.is_selected _ _).
Qed.

(** A relayed message whose id is already displayed changes nothing. *)
Lemma receiveMessage_duplicate st ev now i :
  Chat.new_id ev = Some i ->
  Spec.displayed_times i (Chat.messages st) <> 0%nat ->
  state_after (Chat.receiveMessage toLocaleTimeString now ev st) = st.
Proof.
  intros Hi Hd.
  destruct (Chat.is_user_id (Chat.user st) (Chat.new_userId ev)) eqn:H1.
  - now rewrite receiveMessage_own.
  - rewrite receiveMessage_known; [reflexivity | assumption |].
    rewrite (some_same_id ev i) by assumption.
    apply negb_true_iff. now apply Nat.eqb_neq.
Qed.

(** A relayed message of somebody else, carrying an id that is not displayed
    yet, is appended under that id. *)
Lemma receiveMessage_first st ev now i :
  Chat.new_id ev = Some i -> i <> "" ->
  Chat.is_user_id (Chat.user st) (Chat.new_userId ev) = false ->
  Spec.displayed_times i (Chat.messages st) = 0%nat ->
  Chat.messages (state_after (Chat.receiveMessage toLocaleTimeString now ev st)) =
    Chat.messages st ++ [Chat.formattedMessage toLocaleTimeString now ev]
  /\ Chat.id (Chat.formattedMessage toLocaleTimeString now ev) = i.
Proof.
  intros Hi Hne H1 H0.
  rewrite receiveMessage_new; [| assumption |].
  - split.
    { unfold state_after. cbn. now destruct (Chat.is_selected _ _). }
    unfold Chat.formattedMessage, Chat.id_or_now. cbn. rewrite Hi.
    unfold JS.truthy. apply String.eqb_neq in Hne. now rewrite Hne.
  - rewrite (some_same_id ev i) by assumption. now rewrite H0.
Qed.

Lemma receiveMessage_selectedChat st ev now :
  Chat.selectedChat (state_after (Chat.receiveMessage toLocaleTimeString now ev st)) =
  Chat.selectedChat st.
Proof.
  destruct (Chat.is_user_id (Chat.user st) (Chat.new_userId ev)) eqn:H1.
  - now rewrite receiveMessage_own.
  - destruct (JS.some (Chat.same_id ev) (Chat.messages st)) eqn:H2.
    + now rewrite receiveMessage_known.
    + rewrite receiveMessage_new by assumption.
      unfold state_after. cbn. now destruct (Chat.is_selected _ _).
Qed.

(** *** Deliveries in any order *)

Lemma displayed_times_other i m :
  Chat.id m <> i -> Spec.displayed_times i [m] = 0%nat.
Proof.
  intros H. unfold Spec.displayed_times. cbn.
  destruct (decide (Chat.id m = i)); [contradiction | reflexivity].
Qed.

(** A relayed event that would be displayed under another id leaves the
    occurrences of [i] as they are. *)
Lemma relayed_other_id st ev now i :
  Chat.id_or_now now ev <> i ->
  Spec.displayed_times i
    (Chat.messages (state_after (Chat.receiveMessage toLocaleTimeString now ev st))) =
  Spec.displayed_times i (Chat.messages st).
Proof.
  intros Hid.
  destruct (Chat.is_user_id (Chat.user st) (Chat.new_userId ev)) eqn:H1.
  { now rewrite receiveMessage_own. }
  destruct (JS.some (Chat.same_id ev) (Chat.messages st)) eqn:H2.
  { now rewrite receiveMessage_known. }
  rewrite receiveMessage_new by assumption. unfold state_after. cbn [fst snd].
  assert (Hm : forall st',
             Chat.messages st' = Chat.messages st ->
             Spec.displayed_times i
               (Chat.messages
                  (Chat.setMessages
                     (fun prev => prev ++ [Chat.formattedMessage toLocaleTimeString now ev])
                     (Chat.setLastMessages
                        (fun prev => <[Chat.new_userId ev := Chat.new_text ev]> prev)
                        st'))) =
             Spec.displayed_times i (Chat.messages st)).
  { intros st' Hst'. cbn [Chat.messages Chat.setMessages Chat.setLastMessages].
    rewrite Hst', displayed_times_app, displayed_times_other by exact Hid. lia. }
  destruct (Chat.is_selected _ _); now apply Hm.
Qed.

(** A relayed event of somebody else that carries [i] shows [i] once when
    it was not shown, and changes nothing when it was. *)
Lemma relayed_same_id st ev now i :
  i <> "" ->
  Chat.new_id ev = Some i ->
  Chat.is_user_id (Chat.user st) (Chat.new_userId ev) = false ->
  Spec.displayed_times i
    (Chat.messages (state_after (Chat.receiveMessage toLocaleTimeString now ev st))) =
  Nat.max 1 (Spec.displayed_times i (Chat.messages st)).
Proof.
  intros Hne Hi Hother.
  destruct (Nat.eq_dec (Spec.displayed_times i (Chat.messages st)) 0%nat) as [H0|H0].
  - destruct (receiveMessage_first st ev now i Hi Hne Hother H0) as [Hm Hid].
    rewrite Hm, displayed_times_app, H0. now rewrite displayed_times_one.
  - rewrite (receiveMessage_duplicate st ev now i Hi H0). lia.
Qed.

Lemma id_or_now_carried ev now i :
  i <> "" -> Chat.new_id ev = Some i -> Chat.id_or_now now ev = i.
Proof.
  intros Hne Hi. unfold Chat.id_or_now. rewrite Hi.
  unfold JS.truthy. apply String.eqb_neq in Hne. now rewrite Hne.
Qed.

(** A send that is not answered with [i] leaves the occurrences of [i] as
    they are. *)
Lemma sent_other_id st created now now' i :
  ~ More.answered i (More.Sent created now now') ->
  Spec.displayed_times i
    (Chat.messages
       (state_after (Chat.handleSendMessage toLocaleTimeString created now now' st))) =
  Spec.displayed_times i (Chat.messages st).
Proof.
  intros Hno. unfold Chat.handleSendMessage. run_handler.
  destruct (negb (JS.truthy (JS.trim (Chat.message st)))); [reflexivity|].
  destruct (Chat.selectedChat st) as [c|]; [|reflexivity].
  destruct (Chat.user st) as [u|]; [|reflexivity].
  destruct created as [j|]; [|reflexivity].
  cbn [fst snd Chat.messages Chat.setMessage Chat.setLastMessages
       Chat.setMessages].
  rewrite displayed_times_app, displayed_times_other; [lia|].
  cbn. intros Hj. now apply Hno.
Qed.

Lemma deliver_user d st :
  Chat.user (state_after (More.deliver toLocaleTimeString d st)) = Chat.user st
  /\ Chat.selectedChat (state_after (More.deliver toLocaleTimeString d st)) =
       Chat.selectedChat st.
Proof.
  destruct d as [text|created now now'|now ev]; cbn [More.deliver].
  - split; reflexivity.
  - unfold Chat.handleSendMessage. run_handler.
    destruct (negb (JS.truthy (JS.trim (Chat.message st)))); [now split|].
    destruct (Chat.selectedChat st) as [c|] eqn:Hc; [|now split].
    destruct (Chat.user st) as [u|] eqn:Hu; [|now split].
    destruct created; cbn; rewrite Hc, Hu; now split.
  - split; [apply receiveMessage_user | apply receiveMessage_selectedChat].
Qed.

Lemma deliver_all_user ds st :
  Chat.user (state_after (More.deliver_all toLocaleTimeString ds st)) = Chat.user st
  /\ Chat.selectedChat (state_after (More.deliver_all toLocaleTimeString ds st)) =
       Chat.selectedChat st.
Proof.
  revert st. induction ds as [|d ds IH]; intros st; [now split|].
  cbn [More.deliver_all]. rewrite bind_state.
  destruct (IH (state_after (More.deliver toLocaleTimeString d st))) as [Hu Hc].
  destruct (deliver_user d st) as [Hu' Hc']. split; congruence.
Qed.

Lemma deliver_all_app ds ds' st :
  state_after (More.deliver_all toLocaleTimeString (ds ++ ds') st) =
  state_after
    (More.deliver_all toLocaleTimeString ds'
       (state_after (More.deliver_all toLocaleTimeString ds st))).
Proof.
  revert st. induction ds as [|d ds IH]; intros st; [reflexivity|].
  cbn [app More.deliver_all]. rewrite !bind_state. apply IH.
Qed.

(** One delivery that is no answer with [i] and no reading of the clock
    taken for [i]: the occurrences of [i] stay, or go from none to one. *)
Lemma deliver_count d st i :
  i <> "" ->
  (More.displayed_as i d -> More.carries i d) ->
  ~ More.answered i d ->
  let shown st' := Spec.displayed_times i (Chat.messages st') in
  let st' := state_after (More.deliver toLocaleTimeString d st) in
  (shown st' = shown st \/ (shown st = 0%nat /\ shown st' = 1%nat))
  /\ (More.carries i d -> ~ More.of_user (Chat.user st) d -> (1 <= shown st')%nat).
Proof.
  intros Hne Hclock Hno shown st'. subst shown st'.
  destruct d as [text|created now now'|now ev]; cbn [More.deliver].
  - split; [now left | intros []].
  - split; [left; now apply sent_other_id | intros []].
  - cbn in Hclock.
    destruct (Chat.is_user_id (Chat.user st) (Chat.new_userId ev)) eqn:Hown.
    { rewrite receiveMessage_own by assumption.
      split; [now left | intros _ H; cbn in H; congruence]. }
    destruct (decide (Chat.id_or_now now ev = i)) as [Hid|Hid].
    + specialize (Hclock Hid).
      rewrite (relayed_same_id st ev now i Hne Hclock Hown).
      split; [|intros _ _; lia].
      destruct (Spec.displayed_times i (Chat.messages st)); [right; now split|left; lia].
    + rewrite (relayed_other_id st ev now i Hid).
      split; [now left|]. intros Hc _. cbn in Hc.
      now rewrite (id_or_now_carried ev now i Hne Hc) in Hid.
Qed.

Lemma deliver_all_count ds st i :
  i <> "" ->
  Forall (fun d => More.displayed_as i d -> More.carries i d) ds ->
  Forall (fun d => ~ More.answered i d) ds ->
  let shown st' := Spec.displayed_times i (Chat.messages st') in
  let final := state_after (More.deliver_all toLocaleTimeString ds st) in
  (shown st <= 1)%nat ->
  (shown st <= shown final)%nat /\ (shown final <= 1)%nat.
Proof.
  intros Hne Hclock Hno shown final. subst shown final.
  revert st. induction Hclock as [|d ds Hd _ IH]; intros st Hst.
  - unfold state_after. cbn. lia.
  - inversion Hno as [|? ? Hd' Hno']; subst.
    cbn [More.deliver_all]. rewrite bind_state.
    destruct (deliver_count d st i Hne Hd Hd') as [Hstep _]. cbv zeta in Hstep.
    specialize (IH Hno' (state_after (More.deliver toLocaleTimeString d st))).
    lia.
Qed.

Lemma deliver_all_shows ds st i :
  i <> "" ->
  Forall (fun d => More.displayed_as i d -> More.carries i d) ds ->
  Forall (fun d => ~ More.answered i d) ds ->
  Exists (fun d => More.carries i d /\ ~ More.of_user (Chat.user st) d) ds ->
  (Spec.displayed_times i (Chat.messages st) <= 1)%nat ->
  Spec.displayed_times i
    (Chat.messages (state_after (More.deliver_all toLocaleTimeString ds st))) = 1%nat.
Proof.
  intros Hne Hclock Hno Hex. revert st Hex.
  induction Hclock as [|d ds Hd Hclock IH]; intros st Hex Hst.
  - inversion Hex.
  - inversion Hno as [|? ? Hd' Hno']; subst.
    cbn [More.deliver_all]. rewrite bind_state.
    destruct (deliver_count d st i Hne Hd Hd') as [Hstep Hshows].
    cbv zeta in Hstep, Hshows.
    inversion Hex as [? ? [Hc Hu]|? ? Hex']; subst.
    + specialize (Hshows Hc Hu).
      pose proof (deliver_all_count ds
                    (state_after (More.deliver toLocaleTimeString d st)) i
                    Hne Hclock Hno') as Hrest. cbv zeta in Hrest. lia.
    + apply (IH Hno').
      * destruct (deliver_user d st) as [Hu _]. now rewrite Hu.
      * lia.
Qed.

(** Before the answer of the persistence call: relayed events that would be
    displayed under [i] are the user's own, which are not displayed. *)
Lemma deliver_all_zero ds st i :
  Forall (fun d => ~ More.answered i d) ds ->
  Forall (fun d => More.displayed_as i d -> More.of_user (Chat.user st) d) ds ->
  Spec.displayed_times i (Chat.messages st) = 0%nat ->
  Spec.displayed_times i
    (Chat.messages (state_after (More.deliver_all toLocaleTimeString ds st))) = 0%nat.
Proof.
  intros Hno. revert st. induction Hno as [|d ds Hd _ IH]; intros st Hown Hst.
  - exact Hst.
  - inversion Hown as [|? ? Hd' Hown']; subst.
    cbn [More.deliver_all]. rewrite bind_state. apply IH.
    + destruct (deliver_user d st) as [Hu _]. now rewrite Hu.
    + destruct d as [text|created now now'|now ev]; cbn [More.deliver].
      * exact Hst.
      * now rewrite sent_other_id.
      * cbn in Hd'.
        destruct (Chat.is_user_id (Chat.user st) (Chat.new_userId ev)) eqn:Hu.
        -- now rewrite receiveMessage_own.
        -- rewrite relayed_other_id; [exact Hst|].
           intros Hid. specialize (Hd' Hid). congruence.
Qed.

(** C4. A message delivered several times under the same non-empty id is
    displayed once, whatever else is delivered in between (typing, sends,
    relayed events of other messages), no reading of the clock being taken
    for the id. For a message of somebody else (no send is answered with its
    id): the id is displayed at most once if it was, and exactly once as soon
    as one relayed event of another user carries it. For a message of the
    user (one send is answered with its id, which was not displayed): the
    local echo displays it, and the relayed events that carry the id, before
    the answer or after it, add nothing. *)
Theorem delivered_twice_displayed_once ds st i
    (Hi : i <> "")
    (Hclock : Forall (fun d => More.displayed_as i d -> More.carries i d) ds) :
  let shown st' := Spec.displayed_times i (Chat.messages st') in
  let final := state_after (More.deliver_all toLocaleTimeString ds st) in
  (Forall (fun d => ~ More.answered i d) ds ->
   (shown st <= 1)%nat ->
   (shown st <= shown final)%nat
   /\ (shown final <= 1)%nat
   /\ (Exists (fun d => More.carries i d /\ ~ More.of_user (Chat.user st) d) ds ->
       shown final = 1%nat))
  /\ (forall before now now' after u c,
        ds = before ++ More.Sent (Ok i) now now' :: after ->
        Forall (fun d => ~ More.answered i d) (before ++ after) ->
        Forall (fun d => More.displayed_as i d -> More.of_user (Chat.user st) d)
          before ->
        Chat.user st = Some u ->
        Chat.selectedChat st = Some c ->
        JS.trim (Chat.message
                   (state_after (More.deliver_all toLocaleTimeString before st)))
          <> "" ->
        shown st = 0%nat ->
        shown final = 1%nat).
Proof.
  intros shown final. subst shown final. split.
  - intros Hno Hst.
    destruct (deliver_all_count ds st i Hi Hclock Hno Hst) as [Hge Hle].
    split; [exact Hge|]. split; [exact Hle|].
    intros Hex. now apply deliver_all_shows.
  - intros before now now' after u c -> Hno Hown Hu Hc Hm Hst.
    apply Forall_app in Hno as [Hno_before Hno_after].
    apply Forall_app in Hclock as [_ Hclock].
    inversion Hclock as [|? ? _ Hclock_after]; subst.
    rewrite deliver_all_app. cbn [More.deliver_all]. rewrite bind_state.
    set (sb := state_after (More.deliver_all toLocaleTimeString before st)) in *.
    assert (H0 : Spec.displayed_times i (Chat.messages sb) = 0%nat)
      by now apply deliver_all_zero.
    destruct (deliver_all_user before st) as [Hu' Hc']. fold sb in Hu', Hc'.
    rewrite Hu in Hu'. rewrite Hc in Hc'.
    set (se := state_after (More.deliver toLocaleTimeString
                              (More.Sent (Ok i) now now') sb)).
    assert (H1 : Spec.displayed_times i (Chat.messages se) = 1%nat).
    { subst se. cbn [More.deliver].
      rewrite (handleSendMessage_run sb u c (Ok i) now now' Hu' Hc' Hm).
      unfold state_after. cbn [fst snd].
      unfold Chat.setMessage, Chat.setLastMessages, Chat.setMessages.
      cbn [Chat.messages].
      rewrite displayed_times_app, H0. now rewrite displayed_times_one. }
    pose proof (deliver_all_count after se i Hi Hclock_after Hno_after) as Hrest.
    cbv zeta in Hrest. lia.
Qed.


(** C5, at the input where the code departs from it. u1 has the chat with
    u2 open and receives a message of u3: the unread counter of u3 goes up,
    and the message is appended to the displayed sequence all the same. *)
Theorem message_of_other_conversation_is_displayed :
  let st := Scenario.typing "" in
  let ev := Scenario.relayed "m1" "u3" "hello" in
  let r := Chat.receiveMessage toLocaleTimeString 0 ev st in
  Chat.is_selected (Chat.selectedChat st) (Chat.new_userId ev) = false
  /\ Chat.unreadCounts (state_after r) !! "u3" = Some 1%nat
  /\ Chat.messages (state_after r) =
       [{| Chat.id := "m1"; Chat.text := "hello";
           Chat.timestamp := toLocaleTimeString 0;
           Chat.sender := Chat.other |}].
Proof. repeat split. Qed.

End ChatFacts.

(** ** Sorting and searching in arrays *)

Section SortFacts.

Context {A : Type} (cmp : A -> A -> Z).

Hypothesis cmp_total : forall x y, 0 < cmp x y -> cmp y x <= 0.

Lemma insert_perm x l : Permutation (JS.insert cmp x l) (x :: l).
Proof.
  induction l as [|y l IH]; cbn [JS.insert]; [reflexivity|].
  destruct (cmp x y <=? 0); [reflexivity|].
  rewrite IH. apply perm_swap.
Qed.

Lemma sort_perm l : Permutation (JS.sort cmp l) l.
Proof.
  induction l as [|x l IH]; [reflexivity|].
  unfold JS.sort in *. cbn [foldr]. rewrite insert_perm. now constructor.
Qed.

Lemma insert_hd x y l :
  (JS.not_after cmp) y x -> HdRel (JS.not_after cmp) y l -> HdRel (JS.not_after cmp) y (JS.insert cmp x l).
Proof.
  intros Hyx Hl. destruct l as [|z l]; cbn [JS.insert].
  - now constructor.
  - destruct (cmp x z <=? 0); constructor; [assumption|].
    now inversion Hl.
Qed.

Lemma insert_sorted x l :
  Sorted (JS.not_after cmp) l -> Sorted (JS.not_after cmp) (JS.insert cmp x l).
Proof.
  induction 1 as [|y l Hs IH Hhd]; cbn [JS.insert].
  - repeat constructor.
  - destruct (Z.leb_spec (cmp x y) 0) as [Hle|Hgt].
    + repeat constructor; assumption.
    + constructor; [exact IH|].
      apply insert_hd; [|assumption]. now apply cmp_total.
Qed.

Lemma sort_sorted l : Sorted (JS.not_after cmp) (JS.sort cmp l).
Proof.
  induction l as [|x l IH]; [constructor|].
  unfold JS.sort in *. cbn [foldr]. now apply insert_sorted.
Qed.

End SortFacts.

Lemma Sorted_weaken {A} (R R' : A -> A -> Prop) l :
  (forall x y, R x y -> R' x y) -> Sorted R l -> Sorted R' l.
Proof.
  intros HR. induction 1 as [|x l Hs IH Hhd]; constructor; [assumption|].
  destruct Hhd; constructor. now apply HR.
Qed.

Section FindIndexFacts.

Context {A : Type} (p : A -> bool).

Lemma findIndex_none l : existsb p l = false -> JS.findIndex p l = -1.
Proof.
  induction l as [|x l IH]; [reflexivity|]. cbn [existsb JS.findIndex].
  destruct (p x); [discriminate|]. cbn [orb]. intros H.
  now rewrite (IH H).
Qed.

Lemma findIndex_some l :
  existsb p l = true -> 0 <= JS.findIndex p l < Z.of_nat (length l).
Proof.
  induction l as [|x l IH]; [discriminate|]. cbn [existsb JS.findIndex length].
  destruct (p x); [lia|]. cbn [orb]. intros H. specialize (IH H).
  destruct (Z.ltb_spec (JS.findIndex p l) 0); lia.
Qed.

Lemma findIndex_app_l l l' :
  existsb p l = true -> JS.findIndex p (l ++ l') = JS.findIndex p l.
Proof.
  induction l as [|x l IH]; [discriminate|].
  cbn [existsb JS.findIndex app]. destruct (p x); [reflexivity|].
  cbn [orb]. intros H. now rewrite (IH H).
Qed.

Lemma findIndex_app_r l x l' :
  existsb p l = false -> p x = true ->
  JS.findIndex p (l ++ x :: l') = Z.of_nat (length l).
Proof.
  intros Hl Hx. induction l as [|y l IH]; cbn [JS.findIndex app length].
  - now rewrite Hx.
  - cbn [existsb] in Hl. destruct (p y); [discriminate|]. cbn [orb] in Hl.
    rewrite (IH Hl). destruct (Z.ltb_spec (Z.of_nat (length l)) 0); lia.
Qed.

End FindIndexFacts.

(** ** The legacy histories *)

Section LegacyFacts.

Variable toLocaleTimeString : Z -> string.
Variables (u : Chat.User) (c : Chat.ChatUser).

Lemma first_occurrences_ext seen seen' l :
  (forall x, x ∈ seen <-> x ∈ seen') ->
  Spec.first_occurrences seen l = Spec.first_occurrences seen' l.
Proof.
  revert seen seen'. induction l as [|m l IH]; intros seen seen' H; [reflexivity|].
  cbn [Spec.first_occurrences].
  destruct (decide (Chat.doc_id m ∈ seen)) as [Hin|Hout];
    destruct (decide (Chat.doc_id m ∈ seen')) as [Hin'|Hout'].
  - now apply IH.
  - exfalso. apply Hout'. now apply H.
  - exfalso. apply Hout. now apply H.
  - f_equal. apply IH. intros x. rewrite !elem_of_cons. now rewrite H.
Qed.

Lemma existsb_doc_id (m : Chat.MessageDoc) before :
  existsb (fun m' => String.eqb (Chat.doc_id m') (Chat.doc_id m)) before = true
  <-> Chat.doc_id m ∈ map Chat.doc_id before.
Proof.
  rewrite existsb_exists, list_elem_of_In, in_map_iff.
  split; intros [m' [H1 H2]]; exists m'.
  - apply String.eqb_eq in H2. now split.
  - split; [assumption|]. now apply String.eqb_eq.
Qed.

Lemma isConversationMessage_pairs (m : Chat.MessageDoc) :
  (String.eqb (Chat.doc_userId m) (Chat.user_id u) &&
     String.eqb (Chat.doc_chatId m) (Chat.chat_id c)) ||
  (String.eqb (Chat.doc_userId m) (Chat.chat_id c) &&
     String.eqb (Chat.doc_chatId m) (Chat.user_id u)) ||
  (String.eqb (Chat.doc_chatId m) (Chat.user_id u) &&
     String.eqb (Chat.doc_userId m) (Chat.chat_id c)) ||
  (String.eqb (Chat.doc_chatId m) (Chat.chat_id c) &&
     String.eqb (Chat.doc_userId m) (Chat.user_id u))
  = bool_decide (Spec.pairs (Chat.user_id u) (Chat.chat_id c) m).
Proof.
  unfold Spec.pairs.
  destruct (String.eqb_spec (Chat.doc_userId m) (Chat.user_id u));
    destruct (String.eqb_spec (Chat.doc_chatId m) (Chat.chat_id c));
    destruct (String.eqb_spec (Chat.doc_userId m) (Chat.chat_id c));
    destruct (String.eqb_spec (Chat.doc_chatId m) (Chat.user_id u));
    cbn; symmetry;
    first [ apply bool_decide_eq_true; tauto
          | apply bool_decide_eq_false; tauto ].
Qed.

Lemma filter_from_legacy before l :
  JS.filter_from (Chat.legacy_filter u c) (before ++ l)
    (Z.of_nat (length before)) l =
  filter (Spec.pairs (Chat.user_id u) (Chat.chat_id c))
    (Spec.first_occurrences (map Chat.doc_id before) l).
Proof.
  revert before. induction l as [|m l IH]; intros before; [reflexivity|].
  cbn [JS.filter_from Spec.first_occurrences].
  assert (Hnext : JS.filter_from (Chat.legacy_filter u c) (before ++ m :: l)
                    (Z.of_nat (length before) + 1) l =
                  filter (Spec.pairs (Chat.user_id u) (Chat.chat_id c))
                    (Spec.first_occurrences
                       (map Chat.doc_id (before ++ [m])) l)).
  { rewrite <- IH. rewrite <- app_assoc. cbn [app].
    rewrite length_app. cbn [length]. f_equal. lia. }
  rewrite Hnext. clear Hnext.
  unfold Chat.legacy_filter at 1.
  set (p := fun m' => String.eqb (Chat.doc_id m') (Chat.doc_id m)).
  destruct (decide (Chat.doc_id m ∈ map Chat.doc_id before)) as [Hin|Hout].
  - assert (Hex : existsb p before = true) by now apply existsb_doc_id.
    rewrite (findIndex_app_l p before (m :: l) Hex).
    pose proof (findIndex_some p before Hex) as Hrange.
    destruct (Z.eqb_spec (JS.findIndex p before) (Z.of_nat (length before)));
      [lia|]. cbn [negb].
    f_equal. apply first_occurrences_ext. intros x.
    rewrite map_app. cbn [map]. rewrite elem_of_app, list_elem_of_singleton.
    split; [intros [H| ->]; assumption | tauto].
  - assert (Hex : existsb p before = false).
    { destruct (existsb p before) eqn:E; [|reflexivity].
      exfalso. apply Hout. now apply existsb_doc_id. }
    rewrite (findIndex_app_r p before m l Hex) by apply String.eqb_refl.
    rewrite Z.eqb_refl. cbn [negb].
    rewrite isConversationMessage_pairs, filter_cons.
    rewrite (first_occurrences_ext (map Chat.doc_id (before ++ [m]))
               (Chat.doc_id m :: map Chat.doc_id before)).
    + destruct (decide (Spec.pairs (Chat.user_id u) (Chat.chat_id c) m))
        as [Hp|Hp].
      * now rewrite bool_decide_eq_true_2.
      * now rewrite bool_decide_eq_false_2.
    + intros x. rewrite map_app. cbn [map].
      rewrite elem_of_app, list_elem_of_singleton, elem_of_cons. tauto.
Qed.

(** The filter of the union keeps the first occurrences that pair the two
    participants. *)
Lemma filter_indexed_legacy union :
  JS.filter_indexed (Chat.legacy_filter u c) union =
  Spec.legacy_selection (Chat.user_id u) (Chat.chat_id c) union.
Proof. apply (filter_from_legacy [] union). Qed.

Lemma combinedMessages_spec union :
  Permutation (Chat.combinedMessages u c union)
    (Spec.legacy_selection (Chat.user_id u) (Chat.chat_id c) union)
  /\ Spec.ascending (Chat.combinedMessages u c union).
Proof.
  unfold Chat.combinedMessages. rewrite filter_indexed_legacy. split.
  - apply sort_perm.
  - apply (Sorted_weaken (JS.not_after Chat.by_timestamp)).
    + unfold JS.not_after, Chat.by_timestamp. intros x y. lia.
    + apply sort_sorted. unfold Chat.by_timestamp. intros x y. lia.
Qed.

(** When the query by pairing identifier finds messages, they are displayed
    as they come and the legacy histories are not asked for. *)
Lemma fetchMessages_new_format st chatId m data response1 response2 :
  let r := Chat.fetchMessages toLocaleTimeString chatId (Ok (m :: data))
             response1 response2 st in
  effects_of r = [Chat.ApiGetMessages chatId]
  /\ Chat.messages (state_after r) =
       map (Chat.formatMessage toLocaleTimeString (Chat.user st)) (m :: data).
Proof.
  unfold Chat.fetchMessages, Chat.fetchMessages_request,
    Chat.fetchMessages_resume.
  run_handler. cbn. split; reflexivity.
Qed.

(** C9. When the query by pairing identifier returns the empty list,
    [fetchMessages] asks for the legacy history of the user and then for the
    one of the selected participant; of their union it keeps the first
    occurrence of each message id, and of these the messages whose userId and
    chatId are the two participants, in either orientation; it displays what
    is kept in ascending order of timestamp: the display has one message per
    kept document, in that order, with the id and the text of the document,
    its time of day, and the user as sender exactly when the userId of the
    document is the id of the user. *)
Theorem fetchMessages_legacy_fallback st chatId data1 data2
    (Hu : Chat.user st = Some u)
    (Hc : Chat.selectedChat st = Some c) :
  let r := Chat.fetchMessages toLocaleTimeString chatId
             (Ok []) (Ok data1) (Ok data2) st in
  effects_of r =
    [Chat.ApiGetMessages chatId;
     Chat.ApiGetMessages (Chat.user_id u);
     Chat.ApiGetMessages (Chat.chat_id c)]
  /\ (exists shown,
        Permutation shown
          (Spec.legacy_selection (Chat.user_id u) (Chat.chat_id c)
             (data1 ++ data2))
        /\ Spec.ascending shown
        /\ Forall2
             (fun m d =>
                Chat.id m = Chat.doc_id d
                /\ Chat.text m = Chat.doc_text d
                /\ Chat.timestamp m = toLocaleTimeString (Chat.doc_timestamp d)
                /\ Chat.sender m =
                     (if String.eqb (Chat.doc_userId d) (Chat.user_id u)
                      then Chat.me else Chat.other))
             (Chat.messages (state_after r)) shown)
  /\ Chat.loading (state_after r) = false.
Proof.
  intros r. subst r.
  unfold Chat.fetchMessages, Chat.fetchMessages_request,
    Chat.fetchMessages_resume, Chat.old_formats.
  run_handler. cbn. rewrite Hu, Hc. cbn.
  split; [reflexivity|]. split; [|reflexivity].
  exists (Chat.combinedMessages u c (data1 ++ data2)).
  destruct (combinedMessages_spec (data1 ++ data2)) as [Hperm Hsorted].
  split; [exact Hperm|]. split; [exact Hsorted|].
  apply Forall2_fmap_l, Forall_Forall2_diag, Forall_forall.
  intros d _. repeat split.
Qed.

End LegacyFacts.

(** ** The call session *)

Ltac unfold_step :=
  unfold VideoCall.step, VideoCall.when, VideoCall.cleanup, VideoCall.effect,
    VideoCall.initializeMedia_request, VideoCall.initializeMedia_resolved,
    VideoCall.initializeMedia_rejected, VideoCall.setupPeerConnection,
    VideoCall.handleOffer, VideoCall.handleAnswer, VideoCall.handleIceCandidate,
    VideoCall.createOffer, VideoCall.handleAcceptCall,
    VideoCall.handleRejectCall, VideoCall.handleEndCall, VideoCall.addTracks,
    VideoCall.pc_call.

Ltac case_handler :=
  repeat (run_handler; cbv beta iota zeta; cbn;
          match goal with
          | |- context [match ?x with _ => _ end] =>
              lazymatch type of x with
              | prod _ _ => fail
              | _ => destruct x eqn:?
              end
          end);
  run_handler; cbv beta iota zeta; cbn.

Lemma not_closed_AddTrack tracks :
  VideoCall.Close ∉ map VideoCall.AddTrack tracks.
Proof.
  rewrite list_elem_of_In, in_map_iff. intros [t [H _]]. discriminate.
Qed.

Lemma lookup_fresh (l : list (list VideoCall.PcCall)) :
  (l ++ [[]]) !! length l = Some [].
Proof. apply list_lookup_middle. reflexivity. Qed.

Lemma lookup_fresh_alter g (l : list (list VideoCall.PcCall)) :
  alter g (length l) (l ++ [[]]) !! length l = Some (g []).
Proof. rewrite list_lookup_alter_eq, lookup_fresh. reflexivity. Qed.

Ltac ready_fresh :=
  eexists _, _; split; [reflexivity|];
  split; [first [apply lookup_fresh | apply lookup_fresh_alter]|];
  cbn; rewrite ?not_elem_of_cons; repeat split; try discriminate;
  first [apply not_elem_of_nil | apply not_closed_AddTrack].

Ltac ready_kept H Hl Hs :=
  let i := fresh "i" in
  let calls := fresh "calls" in
  let Hr := fresh "Hr" in
  let Hlk := fresh "Hlk" in
  let Hnc := fresh "Hnc" in
  destruct (H Hl Hs) as (i & calls & Hr & Hlk & Hnc);
  first
    [ exists i, calls; repeat split; assumption
    | eexists i, _; split; [assumption|];
      split;
      [ match goal with
        | Hn : VideoCall.peerConnectionRef _ = Some ?n |- _ =>
            assert (n = i) as -> by congruence
        end;
        rewrite !list_lookup_alter_eq, Hlk; reflexivity
      | cbn; rewrite ?elem_of_app, ?elem_of_cons, ?list_elem_of_singleton;
        intros Hbad; decompose [or] Hbad;
        first [ contradiction | discriminate
              | eapply not_elem_of_nil; eassumption
              | eapply not_closed_AddTrack; eassumption ] ] ].

Section VideoCallFacts.

Import VideoCall.

(** *** Release of media and connection *)

Lemma filter_not_elem_self (l : list Track) : filter (fun t => t ∉ l) l = [].
Proof.
  assert (H : forall l', (forall t, t ∈ l' -> t ∈ l) -> filter (fun t => t ∉ l) l' = []).
  { induction l' as [|t l' IH]; intros Hsub; [reflexivity|].
    rewrite filter_cons. destruct (decide (t ∉ l)) as [Hn|_].
    - exfalso. apply Hn, Hsub. constructor.
    - apply IH. intros t' Ht'. apply Hsub. now constructor. }
  now apply H.
Qed.

(** When the stream was acquired before the component goes away, the
    cleanup stops its tracks and closes the connection. *)
Lemma release_after_acquisition p stream :
  callStatus p <> outgoing ->
  let w := state_after (session p [MediaResolved stream; Unmount]) in
  live_tracks w = [] /\ open_connections w = [].
Proof.
  intros Hs w. subst w. destruct p as [v rid st acc rej]. cbn in Hs.
  destruct stream as [tracks].
  split.
  - unfold live_tracks.
    set (r := session _ _).
    assert (Ha : acquired (state_after r) = tracks)
      by (subst r; destruct st; [|contradiction|]; destruct tracks; reflexivity).
    assert (Hst : stopped (state_after r) = tracks)
      by (subst r; destruct st; [|contradiction|]; destruct tracks; reflexivity).
    rewrite Ha, Hst. apply filter_not_elem_self.
  - assert (Hc : connections
                   (state_after
                      (session
                         {| isVideoCall := v; recipientId := rid;
                            callStatus := st; onAcceptCall := acc;
                            onRejectCall := rej |}
                         [MediaResolved {| getTracks := tracks |}; Unmount])) =
                 [map AddTrack tracks ++ [Close]]).
    { destruct st; [|contradiction|]; destruct tracks; reflexivity. }
    unfold open_connections. rewrite Hc, filter_cons.
    destruct (decide _) as [Hn|_]; [|reflexivity].
    exfalso. apply Hn. rewrite elem_of_app, list_elem_of_singleton. tauto.
Qed.

(** Once the component is gone, nothing stops a track any more. *)
Lemma stopped_after_unmount w e :
  mounted w = false -> stopped (state_after (step e w)) = stopped w.
Proof.
  intros Hm. destruct e; unfold_step; run_handler; cbv beta iota zeta;
    rewrite ?Hm; cbn [andb]; case_handler; reflexivity.
Qed.

(** When the stream is handed over after the component has gone, all its
    tracks stay live. *)
Lemma acquisition_after_unmount p stream :
  callStatus p <> outgoing ->
  live_tracks (state_after (session p [Unmount; MediaResolved stream])) =
    getTracks stream.
Proof.
  intros Hs. destruct p as [v rid st acc rej]. cbn in Hs.
  destruct stream as [tracks]. unfold live_tracks.
  set (r := session _ _).
  assert (Ha : acquired (state_after r) = tracks)
    by (subst r; destruct st; [|contradiction|]; destruct tracks; reflexivity).
  assert (Hst : stopped (state_after r) = [])
    by (subst r; destruct st; [|contradiction|]; destruct tracks; reflexivity).
  rewrite Ha, Hst. cbn [getTracks]. clear.
  induction tracks as [|t tracks IH]; [reflexivity|].
  rewrite filter_cons. destruct (decide (t ∉ [])) as [_|Hn].
  - now rewrite IH.
  - exfalso. apply Hn, not_elem_of_nil.
Qed.

(** C1, at the input where the code departs from it. A connected video call
    is mounted, ended at once, and the component goes away; the camera and
    the microphone are handed over afterwards. The connection is closed, but
    the two tracks are live and no acquisition is pending. *)
Theorem cancel_before_media_leaves_tracks_live :
  let r := session (Scenario.video_call connected)
             [ClickEnd; Unmount; MediaResolved Scenario.camera_and_microphone] in
  mounted (state_after r) = false
  /\ open_connections (state_after r) = []
  /\ pendingMedia (state_after r) = 0%nat
  /\ live_tracks (state_after r) = [0%nat; 1%nat].
Proof. repeat split. Qed.

(** *** Refused media *)

(** C6. When [getUserMedia] refuses, the error is logged and the user is
    alerted; no other request for media is made, and the component is left as
    it was, but for the acquisition that is no longer pending: the call keeps
    its status and stays mounted, it is not ended. *)
Theorem media_failure_alerts_and_call_goes_on w
    (Hpending : (0 < pendingMedia w)%nat) :
  let r := step MediaRejected w in
  effects_of r =
    [ConsoleError;
     Alert "Unable to access camera or microphone. Please check permissions."]
  /\ state_after r = setPendingMedia pred w
  /\ callStatus (props (state_after r)) = callStatus (props w)
  /\ mounted (state_after r) = mounted w
  /\ pendingMedia (state_after r) = pred (pendingMedia w)
  /\ (mounted w = true -> ~ Spec.session_ended r).
Proof.
  intros r. subst r.
  assert (Hlt : (0 <? pendingMedia w)%nat = true) by (apply Nat.ltb_lt; lia).
  unfold_step. run_handler. cbv beta iota zeta. rewrite Hlt. cbn.
  do 5 (split; [reflexivity|]).
  intros Hm [H|[H|H]].
  - unfold state_after in H. cbn in H. congruence.
  - unfold effects_of in H. cbn in H.
    rewrite !elem_of_cons in H. destruct H as [H|[H|H]]; try discriminate.
    now apply not_elem_of_nil in H.
  - unfold effects_of in H. cbn in H.
    rewrite !elem_of_cons in H. destruct H as [H|[H|H]]; try discriminate.
    now apply not_elem_of_nil in H.
Qed.

(** *** Candidates *)

Lemma state_after_bind {A B} (m : M World Effect A) (k : A -> M World Effect B) w :
  state_after ((m ≫= k) w) = state_after (k (fst (fst (m w))) (state_after (m w))).
Proof.
  unfold state_after, mbind, M_bind, bind.
  destruct (m w) as [[a w1] t1]. cbn. now destruct (k a w1) as [[b w2] t2].
Qed.

Lemma session_cons p events e :
  state_after (session p (events ++ [e])) =
  state_after (step e (state_after (session p events))).
Proof.
  unfold session. rewrite !state_after_bind.
  generalize (state_after (mount (unmounted p))). cbn [fst].
  induction events as [|e' events IH]; intros w.
  - cbn [app run]. rewrite state_after_bind. reflexivity.
  - cbn [app run]. rewrite !state_after_bind. apply IH.
Qed.

Lemma step_ready e w :
  connection_ready w -> connection_ready (state_after (step e w)).
Proof.
  intros H. destruct e; unfold_step; run_handler; cbv beta iota zeta.
  - destruct (mounted w && negb (CallStatus_eqb s (callStatus (props w))));
      [|exact H].
    clear H. case_handler. all: intros Hl Hs; cbn in *.
    all: first [congruence | ready_fresh].
  - case_handler; try exact H. all: intros Hl Hs; cbn in *; congruence.
  - case_handler; try exact H. all: intros Hl Hs; cbn in *.
    all: ready_kept H Hl Hs.
  - case_handler; try exact H. all: intros Hl Hs; cbn in *.
    all: ready_kept H Hl Hs.
  - case_handler; try exact H. all: intros Hl Hs; cbn in *.
    all: ready_kept H Hl Hs.
  - case_handler; try exact H. all: intros Hl Hs; cbn in *.
    all: ready_kept H Hl Hs.
  - case_handler; try exact H. all: intros Hl Hs; cbn in *.
    all: ready_kept H Hl Hs.
  - case_handler; try exact H. all: intros Hl Hs; cbn in *.
    all: ready_kept H Hl Hs.
  - case_handler; exact H.
  - case_handler; try exact H. all: intros Hl Hs; cbn in *.
    all: ready_kept H Hl Hs.
  - case_handler; exact H.
  - case_handler; exact H.
Qed.

Lemma mount_ready p : connection_ready (state_after (session p [])).
Proof.
  destruct p as [v rid st acc rej].
  destruct st; intros Hl Hs;
    [ | exfalso; apply Hs; reflexivity | ];
    (exists 0%nat, []; split; [reflexivity|]; split; [reflexivity|];
     apply not_elem_of_nil).
Qed.

(** Whatever happens to a mounted component, while its listeners are
    registered in the status incoming or connected its ref holds an open
    connection. *)
Lemma session_ready p events : connection_ready (state_after (session p events)).
Proof.
  induction events as [|e events IH] using rev_ind.
  - apply mount_ready.
  - rewrite session_cons. now apply step_ready.
Qed.

Lemma step_IceCandidate_applied w candidate i :
  listening w = true -> peerConnectionRef w = Some i ->
  step (IceCandidate candidate) w =
    (tt,
     setConnections (alter (fun calls => calls ++ [AddIceCandidate candidate]) i) w,
     []).
Proof.
  intros Hl Hr. unfold_step. run_handler. cbv beta iota zeta.
  now rewrite Hl, Hr.
Qed.

Lemma step_IceCandidate_dropped w candidate :
  peerConnectionRef w = None ->
  step (IceCandidate candidate) w = (tt, w, []).
Proof.
  intros Hr. unfold_step. run_handler. cbv beta iota zeta.
  destruct (listening w); [|reflexivity].
  cbv beta iota zeta. now rewrite Hr.
Qed.

(** C2. The candidates are not buffered. In the status incoming or
    connected the effect creates the connection before it registers the
    listeners, and from then on, as long as the listeners are registered in
    such a status, the ref holds an open connection, to which every candidate
    received is given. Without a connection (which is how the status outgoing
    starts) a candidate received is discarded: it changes nothing and is kept
    nowhere. *)
Theorem candidates_reach_the_connection p events candidate :
  let w := state_after (session p events) in
  (callStatus p ≠ outgoing ->
     effects_of (session p []) =
       [GetUserMedia (isVideoCall p); NewRTCPeerConnection 0;
        SocketOn "offer"; SocketOn "answer"; SocketOn "ice-candidate"])
  /\ (listening w = true -> callStatus (props w) <> outgoing ->
        exists i calls,
          peerConnectionRef w = Some i
          /\ connections w !! i = Some calls
          /\ (Close ∉ calls)
          /\ connections (state_after (step (IceCandidate candidate) w)) !! i =
               Some (calls ++ [AddIceCandidate candidate]))
  /\ (peerConnectionRef w = None ->
        step (IceCandidate candidate) w = (tt, w, [])).
Proof.
  intros w. subst w. split; [|split].
  - intros Hs. destruct p as [v rid st acc rej]. cbn in Hs.
    destruct st; [reflexivity | contradiction | reflexivity].
  - intros Hl Hs.
    destruct (session_ready p events Hl Hs) as (i & calls & Hr & Hlk & Hnc).
    exists i, calls. repeat (split; [assumption|]).
    rewrite (step_IceCandidate_applied _ candidate i Hl Hr).
    unfold state_after at 1. cbn [fst snd connections setConnections].
    now rewrite list_lookup_alter_eq, Hlk.
  - apply step_IceCandidate_dropped.
Qed.

End VideoCallFacts.

(** The claim C6 as it stands fails: an incoming video call whose media is
    refused alerts the user and is still mounted, still incoming, and has
    asked neither for the end nor for the rejection of the call. *)
Lemma media_failure_keeps_call_open :
  let r := VideoCall.session (Scenario.video_call VideoCall.incoming)
             [VideoCall.MediaRejected] in
  VideoCall.Alert "Unable to access camera or microphone. Please check permissions."
    ∈ effects_of r
  /\ VideoCall.callStatus (VideoCall.props (state_after r)) = VideoCall.incoming
  /\ ~ Spec.session_ended r.
Proof.
  cbv zeta. split; [|split].
  - vm_compute. repeat constructor.
  - reflexivity.
  - intros [H|[H|H]].
    + vm_compute in H. discriminate.
    + apply list_elem_of_In in H. vm_compute in H. intuition discriminate.
    + apply list_elem_of_In in H. vm_compute in H. intuition discriminate.
Qed.

(** The claim C2 as it stands fails: an outgoing video call registers the
    listeners while no connection exists; a candidate received then is given
    to no connection, neither at once nor after the call has become
    connected and the connection exists. *)
Lemma candidate_before_connection_is_dropped :
  let p := Scenario.video_call VideoCall.outgoing in
  let before := state_after (VideoCall.session p []) in
  let after :=
    state_after
      (VideoCall.session p
         [VideoCall.IceCandidate "c1";
          VideoCall.StatusChange VideoCall.connected]) in
  VideoCall.listening before = true
  /\ VideoCall.peerConnectionRef before = None
  /\ VideoCall.peerConnectionRef after = Some 0%nat
  /\ VideoCall.connections after = [[]]
  /\ ~ Spec.candidate_applied "c1" after.
Proof.
  cbv zeta. do 4 (split; [reflexivity|]).
  intros [calls [Hin Hc]].
  change (calls ∈ [[]]) in Hin.
  apply list_elem_of_singleton in Hin. subst calls.
  now apply not_elem_of_nil in Hc.
Qed.

(** ** The properties at work on the concrete conversation *)

Example legacy_history_displayed :
  Chat.messages
    (state_after
       (Chat.fetchMessages Scenario.clock_text "u1_u2"
          (Ok []) (Ok Scenario.history_u1) (Ok Scenario.history_u2)
          (Scenario.typing ""))) =
  [{| Chat.id := "b"; Chat.text := "b"; Chat.timestamp := "12:00";
      Chat.sender := Chat.other |};
   {| Chat.id := "a"; Chat.text := "a"; Chat.timestamp := "12:00";
      Chat.sender := Chat.me |}].
Proof. reflexivity. Qed.

Lemma formatDuration_witness :
  (5999 <= JS.MAX_SAFE_INTEGER)%N
  /\ VideoCall.formatDuration 5999 = Some "99:59".
Proof.
  assert (Hsafe : (5999 <= JS.MAX_SAFE_INTEGER)%N) by (vm_compute; discriminate).
  split; [exact Hsafe|].
  exact (proj1 (formatDuration_spec 5999 Hsafe)).
Defined.

Lemma sending_witness :
  JS.trim (Chat.message (Scenario.typing "hi")) <> ""
  /\ effects_of
       (Chat.handleSendMessage Scenario.clock_text (Ok "m100") 0 0
          (Scenario.typing "hi")) =
       [Chat.ApiCreateMessage "u1_u2" "hi";
        Chat.EmitSendMessage "u1_u2" "u1" "hi" 0]
  /\ Chat.messages
       (state_after
          (Chat.handleSendMessage Scenario.clock_text (Ok "m100") 0 0
             (Scenario.typing "hi"))) =
       [{| Chat.id := "m100"; Chat.text := "hi"; Chat.timestamp := "12:00";
           Chat.sender := Chat.me |}]
  /\ state_after
       (Chat.handleSendMessage Scenario.clock_text Failed 0 0
          (Scenario.typing "hi")) = Scenario.typing "hi".
Proof.
  assert (Hm : JS.trim (Chat.message (Scenario.typing "hi")) <> "")
    by (vm_compute; discriminate).
  destruct (sending_persists_then_displays Scenario.clock_text
              (Scenario.typing "hi") Scenario.u1 (Scenario.chat_with "u2")
              eq_refl eq_refl Hm) as [Hok Hfailed].
  destruct (Hok "m100" 0 0) as [Heffects Hmessages].
  destruct (Hfailed 0 0) as [Hstate _].
  split; [exact Hm|]. split; [exact Heffects|].
  split; [exact Hmessages | exact Hstate].
Defined.

Lemma select_conversation_witness :
  Chat.user Scenario.with_unread = Some Scenario.u1
  /\ Chat.selectedChat Scenario.with_unread <> Some (Scenario.chat_with "u3")
  /\ Chat.unreadCounts Scenario.with_unread !! "u3" = Some 2%nat
  /\ Chat.unreadCounts
       (state_after
          (Chat.select_conversation 1024 (Scenario.chat_with "u3")
             Scenario.with_unread)) !! "u3" = Some 0%nat
  /\ effects_of
       (Chat.select_conversation 1024 (Scenario.chat_with "u3")
          Scenario.with_unread) =
       [Chat.EmitUserOnline "u1"; Chat.ApiGetMessages "u1_u3";
        Chat.EmitJoinChat "u1_u3"].
Proof.
  assert (Hswitch : Chat.selectedChat Scenario.with_unread <>
                    Some (Scenario.chat_with "u3")) by discriminate.
  destruct (select_conversation_resets_unread Scenario.with_unread Scenario.u1
              1024 (Scenario.chat_with "u3") eq_refl Hswitch)
    as (_ & Hzero & _ & Heffects & _).
  split; [reflexivity|]. split; [exact Hswitch|]. split; [reflexivity|].
  split; [exact Hzero | exact Heffects].
Defined.

Lemma delivered_twice_witness :
  let other := [More.Relayed 7 (Scenario.relayed "m1" "u2" "hello");
                More.Relayed 8 (Scenario.relayed "m2" "u3" "hi there");
                More.Relayed 9 (Scenario.relayed "m1" "u2" "hello")] in
  let own := [More.Typed "hi";
              More.Relayed 7 (Scenario.relayed "m100" "u1" "hi");
              More.Sent (Ok "m100") 0 0;
              More.Relayed 8 (Scenario.relayed "m2" "u2" "hello");
              More.Relayed 9 (Scenario.relayed "m100" "u1" "hi")] in
  map Chat.id
    (Chat.messages
       (state_after
          (More.deliver_all Scenario.clock_text other (Scenario.typing "")))) =
    ["m1"; "m2"]
  /\ Spec.displayed_times "m1"
       (Chat.messages
          (state_after
             (More.deliver_all Scenario.clock_text other (Scenario.typing ""))))
     = 1%nat
  /\ Spec.displayed_times "m100"
       (Chat.messages
          (state_after
             (More.deliver_all Scenario.clock_text own (Scenario.typing ""))))
     = 1%nat.
Proof.
  intros other own.
  assert (Hm1 : "m1" <> "") by discriminate.
  assert (Hm100 : "m100" <> "") by discriminate.
  assert (Hclock : Forall (fun d => More.displayed_as "m1" d -> More.carries "m1" d)
                     other).
  { repeat constructor; cbn; intros H; first [reflexivity | discriminate H]. }
  assert (Hclock' : Forall (fun d => More.displayed_as "m100" d ->
                                     More.carries "m100" d) own).
  { repeat constructor; cbn; intros H;
      first [reflexivity | contradiction | discriminate H]. }
  destruct (delivered_twice_displayed_once Scenario.clock_text other
              (Scenario.typing "") "m1" Hm1 Hclock) as [Hother _].
  destruct (delivered_twice_displayed_once Scenario.clock_text own
              (Scenario.typing "") "m100" Hm100 Hclock') as [_ Hown].
  split; [reflexivity|]. split.
  - apply Hother.
    + repeat constructor; cbn; tauto.
    + cbn. lia.
    + apply Exists_cons_hd. cbn. split; [reflexivity | discriminate].
  - apply (Hown [More.Typed "hi";
                 More.Relayed 7 (Scenario.relayed "m100" "u1" "hi")]
             0 0
             [More.Relayed 8 (Scenario.relayed "m2" "u2" "hello");
              More.Relayed 9 (Scenario.relayed "m100" "u1" "hi")]
             Scenario.u1 (Scenario.chat_with "u2")).
    + reflexivity.
    + repeat constructor; cbn; tauto.
    + repeat constructor; cbn; intros H;
        first [reflexivity | contradiction | discriminate H].
    + reflexivity.
    + reflexivity.
    + vm_compute. discriminate.
    + reflexivity.
Defined.

Lemma legacy_fallback_witness :
  Chat.user (Scenario.typing "") = Some Scenario.u1
  /\ Chat.selectedChat (Scenario.typing "") = Some (Scenario.chat_with "u2")
  /\ (let r := Chat.fetchMessages Scenario.clock_text "u1_u2"
                 (Ok []) (Ok Scenario.history_u1) (Ok Scenario.history_u2)
                 (Scenario.typing "") in
      effects_of r =
        [Chat.ApiGetMessages "u1_u2"; Chat.ApiGetMessages "u1";
         Chat.ApiGetMessages "u2"]
      /\ (exists shown,
            Permutation shown
              (Spec.legacy_selection "u1" "u2"
                 (Scenario.history_u1 ++ Scenario.history_u2))
            /\ Spec.ascending shown
            /\ Forall2
                 (fun m d =>
                    Chat.id m = Chat.doc_id d
                    /\ Chat.text m = Chat.doc_text d
                    /\ Chat.timestamp m =
                         Scenario.clock_text (Chat.doc_timestamp d)
                    /\ Chat.sender m =
                         (if String.eqb (Chat.doc_userId d) "u1"
                          then Chat.me else Chat.other))
                 (Chat.messages (state_after r)) shown)
      /\ Chat.loading (state_after r) = false).
Proof.
  split; [reflexivity|]. split; [reflexivity|].
  exact (fetchMessages_legacy_fallback Scenario.clock_text Scenario.u1
           (Scenario.chat_with "u2") (Scenario.typing "") "u1_u2"
           Scenario.history_u1 Scenario.history_u2 eq_refl eq_refl).
Defined.

Lemma media_failure_witness :
  let w := state_after
             (VideoCall.session (Scenario.video_call VideoCall.incoming) []) in
  (0 < VideoCall.pendingMedia w)%nat
  /\ VideoCall.mounted w = true
  /\ effects_of (VideoCall.step VideoCall.MediaRejected w) =
       [VideoCall.ConsoleError;
        VideoCall.Alert
          "Unable to access camera or microphone. Please check permissions."]
  /\ VideoCall.callStatus
       (VideoCall.props (state_after (VideoCall.step VideoCall.MediaRejected w))) =
       VideoCall.incoming
  /\ ~ Spec.session_ended (VideoCall.step VideoCall.MediaRejected w).
Proof.
  intros w.
  assert (Hpending : (0 < VideoCall.pendingMedia w)%nat) by (vm_compute; lia).
  destruct (media_failure_alerts_and_call_goes_on w Hpending)
    as (Heffects & _ & Hstatus & _ & _ & Hopen).
  split; [exact Hpending|]. split; [reflexivity|].
  split; [exact Heffects|]. split; [exact Hstatus|].
  exact (Hopen eq_refl).
Defined.

Lemma candidates_witness :
  let p := Scenario.video_call VideoCall.incoming in
  let events := [VideoCall.MediaResolved Scenario.camera_and_microphone] in
  let w := state_after (VideoCall.session p events) in
  let q := Scenario.video_call VideoCall.outgoing in
  let v := state_after (VideoCall.session q []) in
  VideoCall.callStatus p <> VideoCall.outgoing
  /\ VideoCall.listening w = true
  /\ VideoCall.callStatus (VideoCall.props w) <> VideoCall.outgoing
  /\ VideoCall.peerConnectionRef v = None
  /\ effects_of (VideoCall.session p []) =
       [VideoCall.GetUserMedia true; VideoCall.NewRTCPeerConnection 0;
        VideoCall.SocketOn "offer"; VideoCall.SocketOn "answer";
        VideoCall.SocketOn "ice-candidate"]
  /\ (exists i calls,
        VideoCall.peerConnectionRef w = Some i
        /\ VideoCall.connections w !! i = Some calls
        /\ (VideoCall.Close ∉ calls)
        /\ VideoCall.connections
             (state_after (VideoCall.step (VideoCall.IceCandidate "c1") w)) !! i =
             Some (calls ++ [VideoCall.AddIceCandidate "c1"]))
  /\ VideoCall.step (VideoCall.IceCandidate "c1") v = (tt, v, []).
Proof.
  intros p events w q v.
  assert (Hp : VideoCall.callStatus p <> VideoCall.outgoing) by discriminate.
  assert (Hw : VideoCall.callStatus (VideoCall.props w) <> VideoCall.outgoing)
    by discriminate.
  destruct (candidates_reach_the_connection p events "c1")
    as (Horder & Happlied & _).
  destruct (candidates_reach_the_connection q [] "c1")
    as (_ & _ & Hdropped).
  split; [exact Hp|]. split; [reflexivity|]. split; [exact Hw|].
  split; [reflexivity|]. split; [exact (Horder Hp)|].
  split; [exact (Happlied eq_refl Hw) | exact (Hdropped eq_refl)].
Defined.

(** * Further properties of the code *)

(** ** The pairing identifier *)

Lemma pairing_identifier a b :
  Chat.generateChatId a b =
  if JS.string_lt b a then b +:+ "_" +:+ a else a +:+ "_" +:+ b.
Proof.
  unfold Chat.generateChatId. rewrite sort_pair.
  now destruct (JS.string_lt b a).
Qed.

Lemma pairing_symmetric a b : Chat.generateChatId a b = Chat.generateChatId b a.
Proof.
  rewrite !pairing_identifier.
  destruct (JS.string_lt b a) eqn:Hba.
  - now rewrite (string_lt_asym _ _ Hba).
  - destruct (JS.string_lt a b) eqn:Hab; [reflexivity|].
    now rewrite (string_lt_total _ _ Hab Hba).
Qed.

Lemma split_at_underscore x x' y y' :
  More.has_underscore x = false -> More.has_underscore x' = false ->
  x +:+ "_" +:+ y = x' +:+ "_" +:+ y' -> x = x' /\ y = y'.
Proof.
  revert x'. induction x as [|c x IH]; intros [|c' x'] Hx Hx' H.
  - cbn in H. injection H as H. now split.
  - cbn in H. injection H as Hc _. subst c'.
    cbn in Hx'. discriminate.
  - cbn in H. injection H as Hc _. subst c.
    cbn in Hx. discriminate.
  - change (String c (x +:+ "_" +:+ y) = String c' (x' +:+ "_" +:+ y')) in H.
    injection H as Hc H. subst c'.
    cbn [More.has_underscore] in Hx, Hx'.
    apply orb_false_iff in Hx as [_ Hx]. apply orb_false_iff in Hx' as [_ Hx'].
    destruct (IH x' Hx Hx' H) as [-> ->]. now split.
Qed.

(** X7. Two pairs of user ids without underscore that get the same pairing
    identifier are the same pair, in one order or the other. *)
Theorem generateChatId_injective a b c d
    (Ha : More.has_underscore a = false)
    (Hb : More.has_underscore b = false)
    (Hc : More.has_underscore c = false)
    (Hd : More.has_underscore d = false)
    (H : Chat.generateChatId a b = Chat.generateChatId c d) :
  (a = c /\ b = d) \/ (a = d /\ b = c).
Proof.
  rewrite !pairing_identifier in H.
  destruct (JS.string_lt b a), (JS.string_lt d c);
    apply split_at_underscore in H; try assumption;
    destruct H as [-> ->]; tauto.
Qed.

(** With an underscore in an id, two different pairs can collide. *)
Example generateChatId_collision :
  Chat.generateChatId "a_b" "c" = Chat.generateChatId "a" "b_c".
Proof. reflexivity. Qed.

(** ** More on relayed messages *)

Section ReceiveFacts.

Variable toLocaleTimeString : Z -> string.

(** X1. A relayed event of the local user changes nothing and makes no
    sound; a relayed event of anybody else plays the message sound once,
    whether the message is new or already displayed. *)
Theorem sound_for_messages_of_others st ev now :
  let r := Chat.receiveMessage toLocaleTimeString now ev st in
  if Chat.is_user_id (Chat.user st) (Chat.new_userId ev)
  then r = (tt, st, [])
  else effects_of r = [Chat.PlayMessageSound].
Proof.
  cbv zeta.
  destruct (Chat.is_user_id (Chat.user st) (Chat.new_userId ev)) eqn:H1.
  - now apply receiveMessage_own.
  - destruct (JS.some (Chat.same_id ev) (Chat.messages st)) eqn:H2.
    + now rewrite receiveMessage_known.
    + now rewrite receiveMessage_new.
Qed.

Lemma receiveMessage_grows st ev now :
  exists tail,
    Chat.messages (state_after (Chat.receiveMessage toLocaleTimeString now ev st)) =
      Chat.messages st ++ tail
    /\ (length tail <= 1)%nat
    /\ Forall (fun m => Chat.sender m = Chat.other) tail.
Proof.
  destruct (Chat.is_user_id (Chat.user st) (Chat.new_userId ev)) eqn:H1.
  { exists []. rewrite receiveMessage_own by assumption.
    unfold state_after. cbn. rewrite app_nil_r. repeat split; [lia|constructor]. }
  destruct (JS.some (Chat.same_id ev) (Chat.messages st)) eqn:H2.
  { exists []. rewrite receiveMessage_known by assumption.
    unfold state_after. cbn. rewrite app_nil_r. repeat split; [lia|constructor]. }
  exists [Chat.formattedMessage toLocaleTimeString now ev].
  rewrite receiveMessage_new by assumption. unfold state_after. cbn.
  split; [now destruct (Chat.is_selected _ _)|].
  split; [lia|]. repeat constructor.
Qed.

(** X2. Relayed events never remove, reorder or change a displayed message:
    what was displayed stays in front, at most one message is added per
    event, and every added message is shown as one of the other side. *)
Theorem relayed_events_only_append events st :
  exists tail,
    Chat.messages (state_after (More.receive_all toLocaleTimeString events st)) =
      Chat.messages st ++ tail
    /\ (length tail <= length events)%nat
    /\ Forall (fun m => Chat.sender m = Chat.other) tail.
Proof.
  revert st. induction events as [|[now ev] events IH]; intros st.
  - exists []. unfold state_after. cbn. rewrite app_nil_r.
    repeat split; [lia|constructor].
  - cbn [More.receive_all]. rewrite bind_state.
    destruct (receiveMessage_grows st ev now) as (t1 & H1 & L1 & F1).
    destruct (IH (state_after (Chat.receiveMessage toLocaleTimeString now ev st)))
      as (t2 & H2 & L2 & F2).
    exists (t1 ++ t2). rewrite H2, H1, app_assoc.
    split; [reflexivity|]. split.
    + rewrite length_app. cbn [length]. lia.
    + now apply Forall_app.
Qed.

Lemma displayed_times_zero i l :
  Spec.displayed_times i l = 0%nat <-> i ∉ map Chat.id l.
Proof.
  unfold Spec.displayed_times. induction l as [|m l IH]; cbn [map].
  - split; [intros _; apply not_elem_of_nil | reflexivity].
  - rewrite filter_cons, not_elem_of_cons.
    destruct (decide (Chat.id m = i)) as [He|Hne]; cbn [length].
    + split; [discriminate | intros [H _]; congruence].
    + rewrite IH. split; [intros H; split; [congruence | exact H] | tauto].
Qed.

Lemma receiveMessage_distinct st ev now :
  More.has_id ev ->
  NoDup (map Chat.id (Chat.messages st)) ->
  NoDup (map Chat.id
           (Chat.messages
              (state_after (Chat.receiveMessage toLocaleTimeString now ev st)))).
Proof.
  intros (i & Hi & Hne) Hnd.
  destruct (Chat.is_user_id (Chat.user st) (Chat.new_userId ev)) eqn:H1.
  { now rewrite receiveMessage_own. }
  destruct (Nat.eq_dec (Spec.displayed_times i (Chat.messages st)) 0%nat) as [H0|H0].
  - destruct (receiveMessage_first toLocaleTimeString st ev now i Hi Hne H1 H0)
      as [Hm Hid].
    rewrite Hm, map_app. cbn [map]. rewrite Hid.
    apply NoDup_app. split; [exact Hnd|]. split.
    + intros x Hx Hx'. apply list_elem_of_singleton in Hx'. subst x.
      now apply displayed_times_zero in H0.
    + apply NoDup_singleton.
  - now rewrite (receiveMessage_duplicate toLocaleTimeString st ev now i Hi H0).
Qed.

(** X3. A display in which no id occurs twice stays so under any sequence
    of relayed events that carry a non-empty id. *)
Theorem relayed_events_keep_ids_distinct events st
    (Hids : Forall (fun e => More.has_id (snd e)) events)
    (Hdistinct : NoDup (map Chat.id (Chat.messages st))) :
  NoDup (map Chat.id
           (Chat.messages
              (state_after (More.receive_all toLocaleTimeString events st)))).
Proof.
  revert st Hdistinct. induction Hids as [|[now ev] events Hev _ IH]; intros st Hd.
  - exact Hd.
  - cbn [More.receive_all]. rewrite bind_state.
    apply IH. now apply receiveMessage_distinct.
Qed.



Lemma receiveMessage_without_id st ev now :
  Chat.new_id ev = None ->
  Chat.is_user_id (Chat.user st) (Chat.new_userId ev) = false ->
  Chat.messages (state_after (Chat.receiveMessage toLocaleTimeString now ev st)) =
    Chat.messages st ++
      [{| Chat.id := JS.Number_toString now; Chat.text := Chat.new_text ev;
          Chat.timestamp := toLocaleTimeString (Chat.new_timestamp ev);
          Chat.sender := Chat.other |}]
  /\ Chat.user (state_after (Chat.receiveMessage toLocaleTimeString now ev st)) =
       Chat.user st.
Proof.
  intros Hid H1.
  assert (H2 : JS.some (Chat.same_id ev) (Chat.messages st) = false).
  { unfold JS.some, Chat.same_id. rewrite Hid.
    induction (Chat.messages st); [reflexivity | assumption]. }
  rewrite receiveMessage_new by assumption. unfold state_after. cbn.
  unfold Chat.formattedMessage, Chat.id_or_now. rewrite Hid.
  now destruct (Chat.is_selected _ _).
Qed.

(** X5. A relayed event of another user that carries no [_id] is never
    recognised as a duplicate: each delivery adds a message, under the reading
    of the clock as id. *)
Theorem events_without_id_are_all_displayed events st
    (Hnone : Forall (fun e => Chat.new_id (snd e) = None) events)
    (Hother : Forall (fun e => Chat.is_user_id (Chat.user st)
                                 (Chat.new_userId (snd e)) = false) events) :
  map Chat.id
    (Chat.messages (state_after (More.receive_all toLocaleTimeString events st))) =
  map Chat.id (Chat.messages st) ++
    map (fun e => JS.Number_toString (fst e)) events.
Proof.
  revert st Hother. induction Hnone as [|[now ev] events Hev _ IH]; intros st Ho.
  - unfold state_after. cbn. now rewrite app_nil_r.
  - cbn [More.receive_all]. rewrite bind_state. cbn [fst].
    inversion Ho as [|? ? Ho1 Ho2]; subst. cbn [snd] in Hev, Ho1.
    destruct (receiveMessage_without_id st ev now Hev Ho1) as [Hm Hu].
    rewrite IH.
    + rewrite Hm, map_app. cbn [map Chat.id fst]. now rewrite <- app_assoc.
    + rewrite Hu. exact Ho2.
Qed.

End ReceiveFacts.

(** ** More on sending, selecting and loading *)

Section ChatEdgeFacts.

Variable toLocaleTimeString : Z -> string.

(** X6. [handleSendMessage] does nothing at all (no request, no change of
    the state) exactly when its guard gives up: the typed message trimmed is
    empty, or no chat is selected, or no user is logged in. In every other
    case it does something, whatever the persistence call answers. *)
Theorem nothing_sent_without_text_chat_or_user st created now now' :
  Chat.handleSendMessage toLocaleTimeString created now now' st = (tt, st, [])
  <-> (JS.trim (Chat.message st) = ""
       \/ Chat.selectedChat st = None
       \/ Chat.user st = None).
Proof.
  split.
  - intros H.
    destruct (decide (JS.trim (Chat.message st) = "")) as [Hm|Hm]; [now left|].
    destruct (Chat.selectedChat st) as [c|] eqn:Hc; [|tauto].
    destruct (Chat.user st) as [u|] eqn:Hu; [|tauto].
    exfalso.
    rewrite (handleSendMessage_run toLocaleTimeString st u c created now now' Hu Hc Hm)
      in H.
    destruct created; discriminate.
  - intros H. unfold Chat.handleSendMessage. run_handler.
    destruct (JS.truthy (JS.trim (Chat.message st))) eqn:Ht.
    + cbn [negb]. destruct H as [H|[H|H]].
      * unfold JS.truthy in Ht. rewrite H in Ht. discriminate.
      * rewrite H. reflexivity.
      * rewrite H. now destruct (Chat.selectedChat st).
    + reflexivity.
Qed.

Lemma select_conversation_run st u innerWidth chat :
  Chat.user st = Some u ->
  Chat.selectedChat st <> Some chat ->
  let r := Chat.select_conversation innerWidth chat st in
  effects_of r =
    [Chat.EmitUserOnline (Chat.user_id u);
     Chat.ApiGetMessages (Chat.generateChatId (Chat.user_id u) (Chat.chat_id chat));
     Chat.EmitJoinChat (Chat.generateChatId (Chat.user_id u) (Chat.chat_id chat))]
  /\ Chat.user (state_after r) = Some u
  /\ Chat.selectedChat (state_after r) = Some chat
  /\ Chat.message (state_after r) = Chat.message st.
Proof.
  intros Hu Hswitch r. subst r.
  unfold Chat.select_conversation, Chat.handleSelectChat,
    Chat.selectedChat_effect, Chat.fetchMessages_request.
  destruct (innerWidth <? 768) eqn:Hw; run_handler; cbn;
    (destruct (decide (Chat.selectedChat st = Some chat)); [contradiction|]);
    run_handler; cbn; rewrite Hu; cbn; rewrite ?Hw; cbn; repeat split;
    assumption.
Qed.

(** X8. When A switches to the chat with B and B switches to the chat with
    A, both ask for the history of the same pairing identifier and join the
    same room; a message that B then sends is persisted and broadcast under
    that identifier. *)
Theorem both_sides_use_the_same_room stA stB a b cA cB widthA widthB
    (HA : Chat.user stA = Some a)
    (HB : Chat.user stB = Some b)
    (HcA : Chat.chat_id cA = Chat.user_id b)
    (HcB : Chat.chat_id cB = Chat.user_id a)
    (HsA : Chat.selectedChat stA <> Some cA)
    (HsB : Chat.selectedChat stB <> Some cB) :
  exists room,
    effects_of (Chat.select_conversation widthA cA stA) =
      [Chat.EmitUserOnline (Chat.user_id a); Chat.ApiGetMessages room;
       Chat.EmitJoinChat room]
    /\ effects_of (Chat.select_conversation widthB cB stB) =
         [Chat.EmitUserOnline (Chat.user_id b); Chat.ApiGetMessages room;
          Chat.EmitJoinChat room]
    /\ (forall i now now',
          JS.trim (Chat.message stB) <> "" ->
          effects_of
            (Chat.handleSendMessage toLocaleTimeString (Ok i) now now'
               (state_after (Chat.select_conversation widthB cB stB))) =
            [Chat.ApiCreateMessage room (Chat.message stB);
             Chat.EmitSendMessage room (Chat.user_id b) (Chat.message stB) now']).
Proof.
  exists (Chat.generateChatId (Chat.user_id a) (Chat.user_id b)).
  destruct (select_conversation_run stA a widthA cA HA HsA) as (HeA & _).
  destruct (select_conversation_run stB b widthB cB HB HsB)
    as (HeB & HuB & HselB & HmB).
  split; [|split].
  - rewrite HeA. now rewrite HcA.
  - rewrite HeB, HcB.
    now rewrite (pairing_symmetric (Chat.user_id b) (Chat.user_id a)).
  - intros i now now' Hm. rewrite <- HmB in Hm.
    rewrite (handleSendMessage_run toLocaleTimeString _ b cB (Ok i) now now'
               HuB HselB Hm).
    cbv zeta. unfold effects_of. cbn [snd]. rewrite HmB, HcB.
    now rewrite (pairing_symmetric (Chat.user_id b) (Chat.user_id a)).
Qed.

(** X9. With no user logged in, selecting a conversation only records the
    selection (and hides the list on a small viewport): nothing is requested
    or emitted, no unread counter is reset, the display is not touched. *)
Theorem selecting_without_user st innerWidth chat
    (Hu : Chat.user st = None) :
  let r := Chat.select_conversation innerWidth chat st in
  effects_of r = []
  /\ Chat.selectedChat (state_after r) = Some chat
  /\ Chat.unreadCounts (state_after r) = Chat.unreadCounts st
  /\ Chat.messages (state_after r) = Chat.messages st
  /\ Chat.loading (state_after r) = Chat.loading st
  /\ Chat.showSidebar (state_after r) =
       (if innerWidth <? 768 then false else Chat.showSidebar st).
Proof.
  cbv zeta.
  unfold Chat.select_conversation, Chat.handleSelectChat,
    Chat.selectedChat_effect, Chat.fetchMessages_request.
  destruct (innerWidth <? 768) eqn:Hw; run_handler; cbn;
    destruct (decide (Chat.selectedChat st = Some chat));
    run_handler; cbn; rewrite ?Hu; cbn; repeat split.
Qed.

(** *** Loading the history *)

(** X10. Whatever the backend answers, [fetchMessages] ends with the
    loading flag down; it asks for the history of the pairing identifier
    first and sends at most two more requests, and none when that first
    answer is a failure or is not empty. *)
Theorem fetchMessages_requests st chatId response response1 response2 :
  let r := Chat.fetchMessages toLocaleTimeString chatId
             response response1 response2 st in
  Chat.loading (state_after r) = false
  /\ (exists more,
        More.requests (effects_of r) = chatId :: more
        /\ (length more <= 2)%nat
        /\ match response with
           | Ok [] => True
           | _ => more = []
           end).
Proof.
  cbv zeta.
  unfold Chat.fetchMessages, Chat.fetchMessages_request,
    Chat.fetchMessages_resume, Chat.old_formats.
  destruct response as [[|m data]|];
    [destruct (Chat.selectedChat st) as [c|] eqn:Hc,
       (Chat.user st) as [u|] eqn:Hu;
       [destruct response1 as [d1|]; [destruct response2 as [d2|]|]| | |]| |];
    run_handler; cbn; rewrite ?Hc, ?Hu; cbn;
    (split; [reflexivity|]); eexists;
    (split; [reflexivity|]); cbn; (split; [lia | try reflexivity; exact I]).
Qed.

(** X11. The display survives a failure of the query by pairing identifier
    (the failure is logged, nothing else is asked for), but not a failure of
    a legacy query: when the first query returns the empty list and a legacy
    query fails, the display is emptied, whatever it showed; the history of
    the selected participant is not even asked for when the one of the user
    has failed. *)
Theorem fetchMessages_legacy_failure st chatId u c data1 response1 response2
    (Hu : Chat.user st = Some u)
    (Hc : Chat.selectedChat st = Some c) :
  let fails :=
    Chat.fetchMessages toLocaleTimeString chatId Failed response1 response2 st in
  let first_fails :=
    Chat.fetchMessages toLocaleTimeString chatId (Ok []) Failed response2 st in
  let second_fails :=
    Chat.fetchMessages toLocaleTimeString chatId (Ok []) (Ok data1) Failed st in
  state_after fails = Chat.setLoading false st
  /\ effects_of fails = [Chat.ApiGetMessages chatId; Chat.ConsoleError]
  /\ Chat.messages (state_after first_fails) = []
  /\ effects_of first_fails =
       [Chat.ApiGetMessages chatId; Chat.ApiGetMessages (Chat.user_id u)]
  /\ Chat.messages (state_after second_fails) = []
  /\ effects_of second_fails =
       [Chat.ApiGetMessages chatId; Chat.ApiGetMessages (Chat.user_id u);
        Chat.ApiGetMessages (Chat.chat_id c)].
Proof.
  cbv zeta.
  unfold Chat.fetchMessages, Chat.fetchMessages_request,
    Chat.fetchMessages_resume, Chat.old_formats.
  run_handler. cbn. rewrite Hu, Hc. cbn. repeat split.
Qed.

(** X12. [fetchMessages] replaces the display: with the same answers of the
    backend, what is displayed after it does not depend on what was displayed
    before, and loading twice displays the same as loading once. *)
Theorem fetchMessages_replaces_display st chatId data response1 response2 f :
  let fetch := Chat.fetchMessages toLocaleTimeString chatId (Ok data)
                 response1 response2 in
  Chat.messages (state_after (fetch (Chat.setMessages f st))) =
    Chat.messages (state_after (fetch st))
  /\ Chat.messages (state_after (fetch (state_after (fetch st)))) =
       Chat.messages (state_after (fetch st)).
Proof.
  cbv zeta.
  unfold Chat.fetchMessages, Chat.fetchMessages_request,
    Chat.fetchMessages_resume, Chat.old_formats.
  destruct data as [|m data];
    [destruct (Chat.selectedChat st) as [c|] eqn:Hc,
       (Chat.user st) as [u|] eqn:Hu;
       [destruct response1 as [d1|]; [destruct response2 as [d2|]|]| | |]|];
    run_handler; cbn; repeat (progress (rewrite ?Hc, ?Hu; cbn));
    split; reflexivity.
Qed.

End ChatEdgeFacts.

(** ** More on the legacy histories *)

Section LegacyDisplayFacts.

Variable toLocaleTimeString : Z -> string.
Variables (u : Chat.User) (c : Chat.ChatUser).

Lemma fetchMessages_legacy_run st chatId data1 data2 :
  Chat.user st = Some u ->
  Chat.selectedChat st = Some c ->
  Chat.messages
    (state_after
       (Chat.fetchMessages toLocaleTimeString chatId
          (Ok []) (Ok data1) (Ok data2) st)) =
  map (Chat.formatMessage toLocaleTimeString (Some u))
    (Chat.combinedMessages u c (data1 ++ data2)).
Proof.
  intros Hu Hc.
  unfold Chat.fetchMessages, Chat.fetchMessages_request,
    Chat.fetchMessages_resume, Chat.old_formats.
  run_handler. cbn. rewrite Hu, Hc. reflexivity.
Qed.

Lemma first_occurrences_distinct seen l :
  NoDup (map Chat.doc_id (Spec.first_occurrences seen l))
  /\ forall d, d ∈ Spec.first_occurrences seen l ->
       (Chat.doc_id d ∉ seen) /\ d ∈ l.
Proof.
  revert seen. induction l as [|m l IH]; intros seen.
  - split; [constructor | intros d Hd; now apply not_elem_of_nil in Hd].
  - cbn [Spec.first_occurrences].
    destruct (decide (Chat.doc_id m ∈ seen)) as [Hin|Hout].
    + destruct (IH seen) as [Hnd Hel]. split; [exact Hnd|].
      intros d Hd. destruct (Hel d Hd) as [H1 H2].
      split; [exact H1 | now apply list_elem_of_further].
    + destruct (IH (Chat.doc_id m :: seen)) as [Hnd Hel]. split.
      * cbn [map]. constructor; [|exact Hnd].
        intros Hm. apply list_elem_of_fmap in Hm as (d & Hid & Hd).
        destruct (Hel d Hd) as [H1 _]. apply H1. rewrite Hid. constructor.
      * intros d Hd. apply elem_of_cons in Hd as [->|Hd].
        -- split; [exact Hout | constructor].
        -- destruct (Hel d Hd) as [H1 H2]. split.
           ++ intros H. apply H1. now apply list_elem_of_further.
           ++ now apply list_elem_of_further.
Qed.

Lemma legacy_selection_distinct union :
  NoDup (map Chat.doc_id
           (Spec.legacy_selection (Chat.user_id u) (Chat.chat_id c) union)).
Proof.
  unfold Spec.legacy_selection.
  eapply sublist_NoDup.
  - apply (first_occurrences_distinct [] union).
  - apply fmap_sublist, sublist_filter.
Qed.

(** X13. What the legacy fallback displays: no message id occurs twice, and
    every displayed message comes from one of the two legacy histories, pairs
    the two participants, and is shown as the user's own exactly when its
    userId is the one of the user. *)
Theorem legacy_display_has_distinct_ids st chatId data1 data2
    (Hu : Chat.user st = Some u)
    (Hc : Chat.selectedChat st = Some c) :
  let shown :=
    Chat.messages
      (state_after
         (Chat.fetchMessages toLocaleTimeString chatId
            (Ok []) (Ok data1) (Ok data2) st)) in
  NoDup (map Chat.id shown)
  /\ Forall
       (fun m =>
          exists d,
            d ∈ data1 ++ data2
            /\ Spec.pairs (Chat.user_id u) (Chat.chat_id c) d
            /\ Chat.id m = Chat.doc_id d
            /\ Chat.text m = Chat.doc_text d
            /\ (Chat.sender m = Chat.me <-> Chat.doc_userId d = Chat.user_id u))
       shown.
Proof.
  cbv zeta. rewrite (fetchMessages_legacy_run st chatId data1 data2 Hu Hc).
  destruct (combinedMessages_spec u c (data1 ++ data2)) as [Hperm _].
  split.
  - rewrite map_map. cbn [Chat.formatMessage Chat.id].
    rewrite (Permutation_map Chat.doc_id Hperm).
    apply legacy_selection_distinct.
  - apply Forall_forall. intros m Hm.
    apply list_elem_of_fmap in Hm as (d & -> & Hd).
    exists d.
    assert (Hsel : d ∈ Spec.legacy_selection (Chat.user_id u) (Chat.chat_id c)
                         (data1 ++ data2)).
    { rewrite <- Hperm. exact Hd. }
    unfold Spec.legacy_selection in Hsel.
    apply list_elem_of_filter in Hsel as [Hp Hf].
    destruct (first_occurrences_distinct [] (data1 ++ data2)) as [_ Hel].
    destruct (Hel d Hf) as [_ Hin].
    split; [exact Hin|]. split; [exact Hp|].
    split; [reflexivity|]. split; [reflexivity|].
    cbn [Chat.formatMessage Chat.sender Chat.is_user_id].
    destruct (String.eqb_spec (Chat.doc_userId d) (Chat.user_id u)); split;
      congruence.
Qed.

Lemma insert_keeps_order_of_equals x l t :
  filter (fun d => Chat.doc_timestamp d = t) (JS.insert Chat.by_timestamp x l) =
  filter (fun d => Chat.doc_timestamp d = t) (x :: l).
Proof.
  induction l as [|y l IH]; [reflexivity|].
  cbn [JS.insert]. unfold Chat.by_timestamp at 1.
  destruct (Z.leb_spec (Chat.doc_timestamp x - Chat.doc_timestamp y) 0)
    as [Hle|Hgt]; [reflexivity|].
  rewrite filter_cons, IH, !filter_cons.
  destruct (decide (Chat.doc_timestamp y = t)) as [Hy|Hy];
    destruct (decide (Chat.doc_timestamp x = t)) as [Hx|Hx];
    try reflexivity.
  lia.
Qed.

(** X14. The order of the legacy display is stable: the messages that have
    the same timestamp are displayed in the order in which the union of the
    two histories (the one of the user first) has them. *)
Theorem legacy_display_order_is_stable union t :
  filter (fun d => Chat.doc_timestamp d = t) (Chat.combinedMessages u c union) =
  filter (fun d => Chat.doc_timestamp d = t)
    (Spec.legacy_selection (Chat.user_id u) (Chat.chat_id c) union).
Proof.
  unfold Chat.combinedMessages. rewrite filter_indexed_legacy.
  generalize (Spec.legacy_selection (Chat.user_id u) (Chat.chat_id c) union).
  intros l. induction l as [|x l IH]; [reflexivity|].
  unfold JS.sort in *. cbn [foldr].
  rewrite insert_keeps_order_of_equals, !filter_cons, IH. reflexivity.
Qed.

End LegacyDisplayFacts.

(** ** Followed users and call control *)

Ltac case_split :=
  repeat (run_handler; cbv beta iota zeta;
          match goal with
          | |- context [match ?x with _ => _ end] =>
              lazymatch type of x with
              | prod _ _ => fail
              | _ => destruct x eqn:?
              end
          end);
  run_handler; cbv beta iota zeta.

Ltac unfold_calls :=
  unfold ChatCalls.step, ChatCalls.on_callUser, ChatCalls.on_callAccepted,
    ChatCalls.on_callRejected, ChatCalls.on_callEnded, ChatCalls.on_callFailed,
    ChatCalls.initiateCall, ChatCalls.onAccept, ChatCalls.onDecline,
    ChatCalls.onEndCall, ChatCalls.stop_audio, ChatCalls.selection_effect,
    ChatCalls.of_chat, Chat.handleSelectChat, Chat.handleBackToChats,
    Chat.selectedChat_effect, Chat.fetchMessages_request.

Section CallControlFacts.

Import ChatCalls.

(** X15. [fetchFollowedUsers] always ends with the loading flag of the list
    down. When the request fails the list and the selection are left as they
    were. When it succeeds the list has one entry per followed user, in the
    order of the answer and under the same ids, and the selection is only
    touched when no chat was selected: the first entry is then selected. *)
Theorem fetchFollowedUsers_result toUpperCase response w :
  let w' := state_after (fetchFollowedUsers toUpperCase response w) in
  usersLoading w' = false
  /\ match response with
     | Failed =>
         followedUsers w' = followedUsers w
         /\ Chat.selectedChat (chat w') = Chat.selectedChat (chat w)
     | Ok data =>
         map Chat.chat_id (followedUsers w') = map following_id data
         /\ Chat.selectedChat (chat w') =
              match Chat.selectedChat (chat w) with
              | Some c => Some c
              | None => head (followedUsers w')
              end
     end.
Proof.
  cbv zeta. unfold fetchFollowedUsers.
  destruct response as [data|]; run_handler; cbv beta iota zeta.
  - destruct data as [|f data];
      destruct (Chat.selectedChat (chat w)) as [c|] eqn:Hc;
      cbn; rewrite ?Hc; cbn; (split; [reflexivity|]); split;
      try reflexivity;
      rewrite ?map_map; reflexivity.
  - cbn. repeat split.
Qed.

(** X16. A call that the backend refuses to record is not announced: the
    state is left as it was (no modal) and nothing is emitted on the socket;
    and without a selected chat or a user not even the request is made. When
    the record is created, the outgoing modal is shown and [callUser] is
    emitted from the user to the selected user. *)
Theorem initiateCall_result type api_ok w :
  let r := initiateCall type api_ok w in
  match Chat.selectedChat (chat w), Chat.user (chat w) with
  | Some c, Some u =>
      if api_ok
      then effects_of r =
             [ApiInitiateCall (Chat.chat_id c) type;
              EmitCallUser (Chat.chat_id c) (Chat.user_id u) (Chat.username u) type]
           /\ showCallModal (state_after r) = true
           /\ callModalType (state_after r) = outgoing
           /\ callType (state_after r) = type
           /\ showCall (state_after r) = showCall w
      else r = (tt, w, [ApiInitiateCall (Chat.chat_id c) type; ConsoleError])
  | _, _ => r = (tt, w, [])
  end.
Proof.
  cbv zeta. unfold initiateCall. run_handler. cbv beta iota zeta.
  destruct (Chat.selectedChat (chat w)) as [c|]; [|reflexivity].
  destruct (Chat.user (chat w)) as [u|]; [|reflexivity].
  destruct api_ok; cbn; repeat split.
Qed.

Lemma of_chat_effects {A} (m : M Chat.State Chat.Effect A) w :
  effects_of (of_chat m w) = map OfChat (effects_of (m (chat w))).
Proof.
  unfold of_chat, effects_of. now destruct (m (chat w)) as [[a c] t].
Qed.

Lemma of_chat_state {A} (m : M Chat.State Chat.Effect A) w :
  state_after (of_chat m w) = setChat (fun _ => state_after (m (chat w))) w.
Proof.
  unfold of_chat, state_after. now destruct (m (chat w)) as [[a c] t].
Qed.

Lemma chat_effects_have_no_addressee x (t : list Chat.Effect) :
  Forall (fun e => addressee e = None \/ addressee e = Some x) (map OfChat t).
Proof. apply Forall_forall. intros e He. apply list_elem_of_fmap in He as (e' & -> & _). now left. Qed.

Lemma other_user_of_caller w c data x :
  incomingCallData w = Some data -> data_from data = Some x -> x <> "" ->
  other_user w c = x.
Proof.
  intros Hd Hf Hx. unfold other_user. rewrite Hd, Hf.
  unfold JS.truthy. apply String.eqb_neq in Hx. now rewrite Hx.
Qed.

Lemma step_keeps_caller e w :
  (forall d, e <> SocketCallUser d) ->
  incomingCallData (state_after (step e w)) = incomingCallData w.
Proof.
  intros He. destruct e; try (exfalso; now apply (He data));
    unfold_calls; case_split; reflexivity.
Qed.

Lemma step_addressee e w data x :
  incomingCallData w = Some data -> data_from data = Some x -> x <> "" ->
  Forall (fun e' => addressee e' = None \/ addressee e' = Some x)
    (effects_of (step e w)).
Proof.
  intros Hd Hf Hx.
  assert (Ho : forall c, other_user w c = x)
    by (intros c; exact (other_user_of_caller w c data x Hd Hf Hx)).
  destruct e; unfold_calls; case_split; cbn [map app]; rewrite ?Ho;
    repeat (constructor; [first [now left | now right]|]); constructor.
Qed.

Lemma run_addressee events w data x :
  incomingCallData w = Some data -> data_from data = Some x -> x <> "" ->
  Forall (fun e => forall d, e <> SocketCallUser d) events ->
  Forall (fun e' => addressee e' = None \/ addressee e' = Some x)
    (effects_of (run events w)).
Proof.
  intros Hd Hf Hx Hno. revert w Hd.
  induction Hno as [|e events He _ IH]; intros w Hd.
  - constructor.
  - cbn [run]. rewrite bind_effects. apply Forall_app. split.
    + now apply (step_addressee e w data x).
    + apply IH. now rewrite step_keeps_caller.
Qed.

(** X17. Once a call has come in from a user (the event names who it is
    from), every answer, rejection and end of call that the chat view emits
    goes to that user, whichever chat is selected and whatever happens, until
    another call comes in. *)
Theorem calls_are_answered_to_the_last_caller data x events w
    (Hfrom : data_from data = Some x)
    (Hx : x <> "")
    (Hno : Forall (fun e => forall d, e <> SocketCallUser d) events) :
  Forall (fun e => addressee e = None \/ addressee e = Some x)
    (effects_of (run (SocketCallUser data :: events) w)).
Proof.
  cbn [run]. rewrite bind_effects. apply Forall_app. split.
  - unfold step, on_callUser. run_handler. cbn. repeat constructor.
  - apply (run_addressee events _ data x); try assumption.
    unfold step, on_callUser. run_handler. reflexivity.
Qed.

(** X18. The ringing that an incoming call starts is the one that accepting
    or declining in the modal stops; accepting opens the call view, declining
    does not, and both close the modal and tell the caller. *)
Theorem modal_stops_the_ringing data w c
    (Hc : Chat.selectedChat (chat w) = Some c) :
  let ringing := step (SocketCallUser data) w in
  let accepted := step ClickAccept (state_after ringing) in
  let declined := step ClickDecline (state_after ringing) in
  effects_of ringing = [AudioPlayLoop (audios w)]
  /\ showCallModal (state_after ringing) = true
  /\ callModalType (state_after ringing) = incoming
  /\ effects_of accepted =
       [AudioStop (audios w); EmitAnswerCall (other_user (state_after ringing) c)]
  /\ effects_of declined =
       [AudioStop (audios w); EmitRejectCall (other_user (state_after ringing) c)]
  /\ currentAudio (state_after accepted) = None
  /\ currentAudio (state_after declined) = None
  /\ showCallModal (state_after accepted) = false
  /\ showCallModal (state_after declined) = false
  /\ showCall (state_after accepted) = true
  /\ showCall (state_after declined) = showCall w.
Proof.
  cbv zeta. unfold_calls. run_handler. cbv beta iota zeta. cbn.
  rewrite Hc. cbn. repeat split.
Qed.


End CallControlFacts.

(** ** More on the call session *)

Section SessionFacts.

Import VideoCall.

Lemma session_state p events :
  state_after (session p events) =
  state_after (run events (state_after (session p []))).
Proof. unfold session. rewrite !bind_state. reflexivity. Qed.

Lemma session_effects p events :
  effects_of (session p events) =
  effects_of (session p []) ++
  effects_of (run events (state_after (session p []))).
Proof.
  unfold session. rewrite !bind_effects, !bind_state. cbn [run].
  unfold effects_of at 4. cbn. now rewrite app_nil_r.
Qed.

(** *** Listeners and timer *)

Lemma step_paired e w :
  More.listeners_paired w -> More.listeners_paired (state_after (step e w)).
Proof.
  intros [Hl Ht]. destruct e; unfold_step; run_handler; cbv beta iota zeta.
  all: case_handler; unfold More.listeners_paired; cbn in *;
    try (split; congruence).
  all: destruct (mounted w) eqn:Hm; cbn in *; try discriminate; split; congruence.
Qed.

Lemma run_paired events w :
  More.listeners_paired w -> More.listeners_paired (state_after (run events w)).
Proof.
  revert w. induction events as [|e events IH]; intros w H; [exact H|].
  cbn [run]. rewrite bind_state. apply IH. now apply step_paired.
Qed.

Lemma mount_paired p : More.listeners_paired (state_after (session p [])).
Proof. destruct p as [v rid [] acc rej]; split; reflexivity. Qed.

(** *** Registrations and removals *)

Lemma registrations_app ev t t' :
  More.registrations ev (t ++ t') =
  (More.registrations ev t + More.registrations ev t')%nat.
Proof. unfold More.registrations. now rewrite List.filter_app, length_app. Qed.

Lemma removals_app ev t t' :
  More.removals ev (t ++ t') = (More.removals ev t + More.removals ev t')%nat.
Proof. unfold More.removals. now rewrite List.filter_app, length_app. Qed.

Lemma step_balance ev e w :
  ev ∈ More.signaling_events ->
  (More.registrations ev (effects_of (step e w))
   + (if mounted w then 1 else 0) =
   More.removals ev (effects_of (step e w))
   + (if mounted (state_after (step e w)) then 1 else 0))%nat.
Proof.
  intros Hev. destruct e; unfold_step; run_handler; cbv beta iota zeta.
  all: case_handler; cbn; try lia.
  all: unfold More.signaling_events in Hev;
    rewrite !elem_of_cons in Hev; destruct Hev as [->|[->|[->|Hev]]];
    try (now apply not_elem_of_nil in Hev).
  all: destruct (mounted w); cbn in *; try discriminate; reflexivity.
Qed.

Lemma run_balance ev events w :
  ev ∈ More.signaling_events ->
  (More.registrations ev (effects_of (run events w))
   + (if mounted w then 1 else 0) =
   More.removals ev (effects_of (run events w))
   + (if mounted (state_after (run events w)) then 1 else 0))%nat.
Proof.
  intros Hev. revert w. induction events as [|e events IH]; intros w.
  - reflexivity.
  - cbn [run]. rewrite bind_effects, bind_state, registrations_app, removals_app.
    pose proof (step_balance ev e w Hev). specialize (IH (state_after (step e w))).
    lia.
Qed.

Lemma mount_balance ev p :
  ev ∈ More.signaling_events ->
  More.registrations ev (effects_of (session p [])) =
  S (More.removals ev (effects_of (session p []))).
Proof.
  intros Hev. unfold More.signaling_events in Hev.
  rewrite !elem_of_cons in Hev. destruct Hev as [->|[->|[->|Hev]]];
    try (now apply not_elem_of_nil in Hev).
  all: destruct p as [v rid [] acc rej]; reflexivity.
Qed.

Lemma mount_mounted p : mounted (state_after (session p [])) = true.
Proof. destruct p as [v rid [] acc rej]; reflexivity. Qed.

(** X20. Whatever happens during a session, the three socket listeners are
    registered exactly while the component is mounted, the interval of the
    duration runs exactly while it is mounted with a connected call, and
    each of the three listeners was registered once more than it was removed
    while the component is mounted, and as often as removed once it is
    gone. *)
Theorem listeners_and_timer_follow_the_component p events :
  let r := session p events in
  let w := state_after r in
  listening w = mounted w
  /\ timer w = mounted w && CallStatus_eqb (callStatus (props w)) connected
  /\ Forall (fun ev =>
       More.registrations ev (effects_of r) =
       (More.removals ev (effects_of r) + (if mounted w then 1 else 0))%nat)
       More.signaling_events.
Proof.
  intros r w. subst r w.
  destruct (run_paired events _ (mount_paired p)) as [Hl Ht].
  rewrite <- session_state in Hl, Ht.
  split; [exact Hl|]. split; [exact Ht|].
  apply Forall_forall. intros ev Hev.
  rewrite (session_state p events), session_effects, registrations_app,
    removals_app.
  pose proof (mount_balance ev p Hev).
  pose proof (run_balance ev events (state_after (session p [])) Hev) as Hb.
  rewrite mount_mounted in Hb. lia.
Qed.

(** X21. Once the component is gone, a tick of the interval and an offer,
    an answer or a candidate from the socket change nothing and cause
    nothing. *)
Theorem nothing_arrives_after_the_unmount p events e :
  let w := state_after (session p events) in
  mounted w = false -> More.by_subscription e = true ->
  step e w = (tt, w, []).
Proof.
  intros w Hm He.
  destruct (run_paired events _ (mount_paired p)) as [Hl Ht].
  rewrite <- session_state in Hl, Ht. fold w in Hl, Ht.
  rewrite Hm in Hl, Ht. cbn in Ht.
  destruct e; try discriminate; unfold step; run_handler; cbv beta iota zeta;
    rewrite ?Hl, ?Ht; reflexivity.
Qed.

(** *** The connections *)

Lemma alter_last {A} (f : A -> A) (old : list A) (cur : A) :
  alter f (length old) (old ++ [cur]) = old ++ [f cur].
Proof. induction old as [|x old IH]; [reflexivity|]. cbn. f_equal. exact IH. Qed.

Lemma step_one_connection e w :
  More.one_connection w -> More.one_connection (state_after (step e w)).
Proof.
  intros [[Hc Hr] | (old & cur & Hc & Hold & Hr & Hm)].
  - destruct e; unfold_step; case_handler; unfold More.one_connection; cbn;
      try (left; split; assumption); try congruence.
    all: right; rewrite ?Hc; cbn.
    all: repeat match goal with H : _ && _ = true |- _ => apply andb_prop in H as [? ?] end.
    all: eexists [], _; split; [reflexivity|]; split; [constructor|];
      split; [reflexivity|]; intros; congruence.
  - destruct e; unfold_step; case_handler; unfold More.one_connection; cbn.
    all: right.
    all: repeat match goal with
           | H : peerConnectionRef _ = Some ?n |- _ =>
               is_var n; assert (n = length old) as -> by congruence
           | H : peerConnectionRef _ = None |- _ => congruence
           | H : _ && _ = true |- _ => apply andb_prop in H as [? ?]
           end.
    all: rewrite ?Hc, ?alter_last.
    all: rewrite ?alter_last.
    all: eexists _, _; split; [reflexivity|]; split;
      [ rewrite ?Forall_app, ?Forall_singleton; repeat split; try assumption;
        rewrite ?elem_of_app, ?list_elem_of_singleton; tauto
      |]; split; [first [reflexivity | assumption]|].
    all: intros Hmf; try congruence.
    all: try (specialize (Hm Hmf)).
    all: rewrite ?elem_of_app, ?elem_of_cons, ?list_elem_of_singleton; try tauto.
Qed.

Lemma run_one_connection events w :
  More.one_connection w -> More.one_connection (state_after (run events w)).
Proof.
  revert w. induction events as [|e events IH]; intros w H; [exact H|].
  cbn [run]. rewrite bind_state. apply IH. now apply step_one_connection.
Qed.

Lemma mount_one_connection p : More.one_connection (state_after (session p [])).
Proof.
  destruct p as [v rid [] acc rej]; cbn.
  2: left; split; reflexivity.
  all: right; exists [], []; cbn; repeat split; try constructor; discriminate.
Qed.

Lemma filter_closed (old : list (list PcCall)) :
  Forall (fun calls => Close ∈ calls) old ->
  filter (fun calls => Close ∉ calls) old = [].
Proof.
  induction 1 as [|x l Hx _ IH]; [reflexivity|].
  rewrite filter_cons. destruct (decide (Close ∉ x)); [tauto|exact IH].
Qed.

(** X22. Of all the connections a session constructs, at most one is open
    at any time, and none once the component is gone: each run of the
    cleanup closes the connection of the ref before the effect constructs
    the next. *)
Theorem at_most_one_connection_is_open p events :
  let w := state_after (session p events) in
  (length (open_connections w) <= 1)%nat
  /\ (if mounted w then True else open_connections w = []).
Proof.
  intros w. subst w.
  pose proof (run_one_connection events _ (mount_one_connection p)) as H.
  rewrite <- session_state in H.
  set (w := state_after (session p events)) in *.
  unfold open_connections.
  destruct H as [[Hc _] | (old & cur & Hc & Hold & _ & Hm)]; rewrite Hc.
  - cbn. split; [lia|]. now destruct (mounted w).
  - rewrite filter_app, (filter_closed old Hold). cbn [app].
    rewrite filter_cons, filter_nil.
    destruct (decide (Close ∉ cur)) as [Hopen|Hclosed].
    + split; [cbn; lia|]. destruct (mounted w); [exact I|]. now destruct Hopen; apply Hm.
    + split; [cbn; lia|]. now destruct (mounted w).
Qed.

(** *** The tracks *)

Lemma step_tracks_held e w :
  More.calm_at e w -> More.tracks_held w -> More.tracks_held (state_after (step e w)).
Proof.
  intros Hcalm (Hp & Hm & Ht). destruct e; unfold_step; run_handler; cbv beta iota zeta.
  all: case_handler; unfold More.tracks_held; cbn in *; try (repeat split; assumption).
  all: repeat match goal with
              | H : _ && _ = true |- _ => apply andb_prop in H as [? ?]
              | H : Some _ = Some _ |- _ => injection H as ->
              end.
  all: try (destruct (pendingMedia w) as [|[|k]] eqn:Hpend; cbn in *; try discriminate; try lia).
  all: try (split; [lia|]; split; [intros; first [lia | tauto]|]).
  all: repeat match goal with
              | H : getTracks _ = _ |- _ => rewrite <- H in *; clear H
              end.
  all: try (intros track Hin; rewrite ?elem_of_app in *; naive_solver lia).
Qed.

Lemma run_tracks_held events w :
  More.calm events w -> More.tracks_held w ->
  More.tracks_held (state_after (run events w)).
Proof.
  revert w. induction events as [|e events IH]; intros w Hc H; [exact H|].
  destruct Hc as [Hc Hcs]. cbn [run]. rewrite bind_state.
  apply IH; [exact Hcs|]. now apply step_tracks_held.
Qed.

Lemma mount_tracks_held p : More.tracks_held (state_after (session p [])).
Proof.
  destruct p as [v rid [] acc rej]; unfold More.tracks_held; cbn;
    (split; [repeat constructor|]); (split; [reflexivity|]);
    intros t Ht; now apply not_elem_of_nil in Ht.
Qed.

(** X23. In a session where no acquisition of media is in flight when the
    status changes or the component goes away, no track is live after the
    unmount. *)
Theorem calm_sessions_release_their_tracks p events :
  let w := state_after (session p events) in
  More.calm events (state_after (session p [])) ->
  mounted w = false ->
  live_tracks w = [].
Proof.
  intros w Hcalm Hm. subst w.
  pose proof (run_tracks_held events _ Hcalm (mount_tracks_held p)) as H.
  rewrite <- session_state in H.
  set (w := state_after (session p events)) in *.
  destruct H as (_ & _ & H). unfold live_tracks.
  assert (Forall (fun t => t ∈ stopped w) (acquired w)) as Hall.
  { apply Forall_forall. intros t Ht. destruct (H t Ht) as [Hs|(_ & Hm' & _)];
      [exact Hs|congruence]. }
  clear H. induction Hall as [|t l Ht _ IH]; [reflexivity|].
  rewrite filter_cons. destruct (decide (t ∉ stopped w)); [tauto|exact IH].
Qed.


End SessionFacts.

(** ** Muting camera and microphone *)

Section ControlsFacts.

Import Controls.

Lemma Kind_eqb_eq a b : Kind_eqb a b = true <-> a = b.
Proof. destruct a, b; cbn; split; congruence. Qed.

Lemma enable_first_head k b stream :
  head (getTracksOf k (enable_first k b stream)) =
  (fun _ => {| kind := k; enabled := b |}) <$> head (getTracksOf k stream).
Proof.
  induction stream as [|t stream IH]; [reflexivity|].
  cbn. destruct (Kind_eqb (kind t) k) eqn:Hk; cbn; rewrite Hk.
  - apply Kind_eqb_eq in Hk. now rewrite Hk.
  - exact IH.
Qed.

Lemma enable_first_tail k b stream :
  tail (getTracksOf k (enable_first k b stream)) = tail (getTracksOf k stream).
Proof.
  induction stream as [|t stream IH]; [reflexivity|].
  cbn. destruct (Kind_eqb (kind t) k) eqn:Hk; cbn; rewrite Hk; [reflexivity|exact IH].
Qed.

Lemma enable_first_other k k' b stream :
  k <> k' -> getTracksOf k' (enable_first k b stream) = getTracksOf k' stream.
Proof.
  intros Hk. induction stream as [|t stream IH]; [reflexivity|].
  cbn. destruct (Kind_eqb (kind t) k) eqn:Ht; cbn.
  - apply Kind_eqb_eq in Ht.
    destruct (Kind_eqb (kind t) k') eqn:Ht'; [|reflexivity].
    apply Kind_eqb_eq in Ht'. congruence.
  - fold (getTracksOf k' (enable_first k b stream)). now rewrite IH.
Qed.

Lemma enable_first_kinds k b stream :
  map kind (enable_first k b stream) = map kind stream.
Proof.
  induction stream as [|t stream IH]; [reflexivity|].
  cbn. destruct (Kind_eqb (kind t) k); cbn; [reflexivity|now rewrite IH].
Qed.

Lemma enable_first_twice k b b' stream :
  enable_first k b' (enable_first k b stream) = enable_first k b' stream.
Proof.
  induction stream as [|t stream IH]; [reflexivity|].
  cbn. destruct (Kind_eqb (kind t) k) eqn:Ht; cbn; rewrite Ht; [reflexivity|].
  now rewrite IH.
Qed.

Lemma enable_first_same k b stream :
  enabled <$> head (getTracksOf k stream) = Some b \/ head (getTracksOf k stream) = None ->
  enable_first k b stream = stream.
Proof.
  induction stream as [|t stream IH]; [reflexivity|].
  cbn. destruct (Kind_eqb (kind t) k) eqn:Ht; cbn.
  - intros [H|H]; [|discriminate]. injection H as <-. now destruct t.
  - intros H. now rewrite IH.
Qed.

(** X25. [toggleVideo] flips the flag of the button; in the stream of the
    ref it sets [enabled] of the first video track to the new flag and
    leaves the kinds, the other video tracks and the audio tracks as they
    are; without a stream only the flag changes. *)
Theorem toggleVideo_mutes_the_first_video_track st :
  let st' := toggleVideo st in
  isVideoEnabled st' = negb (isVideoEnabled st)
  /\ isAudioEnabled st' = isAudioEnabled st
  /\ match localStreamRef st, localStreamRef st' with
     | Some stream, Some stream' =>
         map kind stream' = map kind stream
         /\ enabled <$> head (getTracksOf video stream') =
            (fun _ => isVideoEnabled st') <$> head (getTracksOf video stream)
         /\ tail (getTracksOf video stream') = tail (getTracksOf video stream)
         /\ getTracksOf audio stream' = getTracksOf audio stream
     | None, None => True
     | _, _ => False
     end.
Proof.
  cbn. split; [reflexivity|]. split; [reflexivity|].
  destruct (localStreamRef st) as [stream|]; [|exact I].
  split; [apply enable_first_kinds|].
  split; [|split; [apply enable_first_tail|now apply enable_first_other]].
  rewrite enable_first_head. now destruct (head (getTracksOf video stream)).
Qed.

(** X26. Two clicks on the microphone button restore flag and stream,
    provided the first audio track, if there is one, agreed with the flag. *)
Theorem toggleAudio_twice st :
  first_enabled audio st = Some (isAudioEnabled st) \/ first_enabled audio st = None ->
  toggleAudio (toggleAudio st) = st.
Proof.
  unfold first_enabled, toggleAudio. destruct st as [v a [stream|]]; cbn.
  - intros H. rewrite negb_involutive, enable_first_twice, enable_first_same; [reflexivity|].
    destruct H as [H|H]; [now left|right].
    now destruct (head (getTracksOf audio stream)).
  - intros _. now rewrite negb_involutive.
Qed.

End ControlsFacts.

(** ** The further properties at work *)

Lemma generateChatId_injective_witness :
  Chat.generateChatId "u2" "u1" = Chat.generateChatId "u1" "u2"
  /\ (("u2" = "u1" /\ "u1" = "u2") \/ ("u2" = "u2" /\ "u1" = "u1")).
Proof.
  split; [reflexivity|].
  apply (generateChatId_injective "u2" "u1" "u1" "u2"); reflexivity.
Defined.

Lemma relayed_events_keep_ids_distinct_witness :
  let events := [(7%N, Scenario.relayed "m1" "u2" "a");
                 (8%N, Scenario.relayed "m1" "u2" "a");
                 (9%N, Scenario.relayed "m2" "u3" "b")] in
  NoDup (map Chat.id (Chat.messages (Scenario.typing "")))
  /\ NoDup (map Chat.id
              (Chat.messages
                 (state_after
                    (More.receive_all Scenario.clock_text events
                       (Scenario.typing ""))))).
Proof.
  intros events.
  assert (Hd : NoDup (map Chat.id (Chat.messages (Scenario.typing ""))))
    by constructor.
  split; [exact Hd|].
  apply (relayed_events_keep_ids_distinct Scenario.clock_text events
           (Scenario.typing "")); [|exact Hd].
  repeat constructor; eexists; (split; [reflexivity | discriminate]).
Defined.

Lemma events_without_id_witness :
  let ev := {| Chat.new_id := None; Chat.new_userId := "u2";
               Chat.new_chatId := "u1_u2"; Chat.new_text := "hello";
               Chat.new_timestamp := 0 |} in
  map Chat.id
    (Chat.messages
       (state_after
          (More.receive_all Scenario.clock_text [(7%N, ev); (7%N, ev)]
             (Scenario.typing "")))) = ["7"; "7"].
Proof.
  intros ev.
  apply (events_without_id_are_all_displayed Scenario.clock_text
           [(7%N, ev); (7%N, ev)] (Scenario.typing ""));
    repeat constructor.
Defined.

Lemma both_sides_witness :
  let u2 := {| Chat.user_id := "u2"; Chat.username := "bob" |} in
  let stA := Chat.setSelectedChat (Some (Scenario.chat_with "u3"))
               (Scenario.typing "") in
  let stB := {| Chat.user := Some u2; Chat.selectedChat := None;
                Chat.message := "hi"; Chat.messages := [];
                Chat.loading := false; Chat.showSidebar := true;
                Chat.unreadCounts := ∅; Chat.lastMessages := ∅ |} in
  exists room,
    effects_of (Chat.select_conversation 1024 (Scenario.chat_with "u2") stA) =
      [Chat.EmitUserOnline "u1"; Chat.ApiGetMessages room; Chat.EmitJoinChat room]
    /\ effects_of (Chat.select_conversation 320 (Scenario.chat_with "u1") stB) =
         [Chat.EmitUserOnline "u2"; Chat.ApiGetMessages room; Chat.EmitJoinChat room]
    /\ effects_of
         (Chat.handleSendMessage Scenario.clock_text (Ok "m7") 0 5
            (state_after
               (Chat.select_conversation 320 (Scenario.chat_with "u1") stB))) =
         [Chat.ApiCreateMessage room "hi"; Chat.EmitSendMessage room "u2" "hi" 5].
Proof.
  intros u2 stA stB.
  assert (HsA : Chat.selectedChat stA <> Some (Scenario.chat_with "u2"))
    by discriminate.
  assert (HsB : Chat.selectedChat stB <> Some (Scenario.chat_with "u1"))
    by discriminate.
  destruct (both_sides_use_the_same_room Scenario.clock_text stA stB
              Scenario.u1 u2 (Scenario.chat_with "u2") (Scenario.chat_with "u1")
              1024 320 eq_refl eq_refl eq_refl eq_refl HsA HsB)
    as (room & HA & HB & Hsend).
  exists room. split; [exact HA|]. split; [exact HB|].
  apply (Hsend "m7" 0 5). vm_compute. discriminate.
Defined.

Lemma selecting_without_user_witness :
  let st := {| Chat.user := None; Chat.selectedChat := None;
               Chat.message := ""; Chat.messages := [];
               Chat.loading := false; Chat.showSidebar := true;
               Chat.unreadCounts := {["u2" := 3%nat]};
               Chat.lastMessages := ∅ |} in
  let r := Chat.select_conversation 320 (Scenario.chat_with "u2") st in
  effects_of r = []
  /\ Chat.selectedChat (state_after r) = Some (Scenario.chat_with "u2")
  /\ Chat.unreadCounts (state_after r) !! "u2" = Some 3%nat
  /\ Chat.showSidebar (state_after r) = false.
Proof.
  intros st r.
  destruct (selecting_without_user st 320 (Scenario.chat_with "u2") eq_refl)
    as (He & Hs & Hu & _ & _ & Hb).
  split; [exact He|]. split; [exact Hs|].
  split; [fold r in Hu; rewrite Hu; reflexivity | exact Hb].
Defined.

Lemma legacy_failure_witness :
  let st := Chat.setMessages
              (fun _ => [{| Chat.id := "old"; Chat.text := "old";
                            Chat.timestamp := "12:00"; Chat.sender := Chat.me |}])
              (Scenario.typing "") in
  Chat.messages st <> []
  /\ Chat.messages
       (state_after
          (Chat.fetchMessages Scenario.clock_text "u1_u2" (Ok []) Failed
             (Ok Scenario.history_u2) st)) = []
  /\ effects_of
       (Chat.fetchMessages Scenario.clock_text "u1_u2" (Ok []) Failed
          (Ok Scenario.history_u2) st) =
       [Chat.ApiGetMessages "u1_u2"; Chat.ApiGetMessages "u1"].
Proof.
  intros st.
  destruct (fetchMessages_legacy_failure Scenario.clock_text st "u1_u2"
              Scenario.u1 (Scenario.chat_with "u2") Scenario.history_u1
              Failed (Ok Scenario.history_u2) eq_refl eq_refl)
    as (_ & _ & Hm & He & _).
  split; [discriminate|]. split; [exact Hm | exact He].
Defined.

Lemma legacy_display_witness :
  NoDup
    (map Chat.id
       (Chat.messages
          (state_after
             (Chat.fetchMessages Scenario.clock_text "u1_u2" (Ok [])
                (Ok Scenario.history_u1) (Ok Scenario.history_u2)
                (Scenario.typing ""))))).
Proof.
  exact (proj1 (legacy_display_has_distinct_ids Scenario.clock_text Scenario.u1
                  (Scenario.chat_with "u2") (Scenario.typing "") "u1_u2"
                  Scenario.history_u1 Scenario.history_u2 eq_refl eq_refl)).
Defined.

Lemma last_caller_witness :
  let data := {| ChatCalls.data_from := Some "u3";
                 ChatCalls.data_name := "carl";
                 ChatCalls.data_callType := ChatCalls.video |} in
  let events := [ChatCalls.SocketCallUser data; ChatCalls.ClickAccept;
                 ChatCalls.HangUp; ChatCalls.ClickCall ChatCalls.audio true;
                 ChatCalls.SocketCallAccepted; ChatCalls.HangUp] in
  let t := effects_of (ChatCalls.run events
                         (ChatCalls.mounted_on (Scenario.typing ""))) in
  Chat.selectedChat (Scenario.typing "") = Some (Scenario.chat_with "u2")
  /\ ChatCalls.EmitCallUser "u2" "u1" "ann" ChatCalls.audio ∈ t
  /\ Forall (fun e => ChatCalls.addressee e = None
                      \/ ChatCalls.addressee e = Some "u3") t.
Proof.
  intros data events t.
  split; [reflexivity|]. split; [vm_compute; repeat constructor|].
  apply (calls_are_answered_to_the_last_caller data "u3");
    [reflexivity | discriminate | repeat constructor; discriminate].
Defined.

Lemma modal_witness :
  let data := {| ChatCalls.data_from := Some "u2";
                 ChatCalls.data_name := "bob";
                 ChatCalls.data_callType := ChatCalls.audio |} in
  let w := ChatCalls.mounted_on (Scenario.typing "") in
  let ringing := ChatCalls.step (ChatCalls.SocketCallUser data) w in
  effects_of ringing = [ChatCalls.AudioPlayLoop 0]
  /\ effects_of (ChatCalls.step ChatCalls.ClickDecline (state_after ringing)) =
       [ChatCalls.AudioStop 0; ChatCalls.EmitRejectCall "u2"].
Proof.
  intros data w ringing.
  destruct (modal_stops_the_ringing data w (Scenario.chat_with "u2") eq_refl)
    as (Hr & _ & _ & _ & Hd & _).
  split; [exact Hr | exact Hd].
Defined.


Lemma after_the_unmount_witness :
  let w := state_after
             (VideoCall.session (Scenario.video_call VideoCall.connected)
                [VideoCall.Tick; VideoCall.Unmount]) in
  VideoCall.mounted w = false
  /\ VideoCall.callDuration w = 1%N
  /\ VideoCall.step VideoCall.Tick w = (tt, w, [])
  /\ VideoCall.step (VideoCall.IceCandidate "c1") w = (tt, w, []).
Proof.
  intros w. split; [reflexivity|]. split; [reflexivity|]. split.
  - exact (nothing_arrives_after_the_unmount
             (Scenario.video_call VideoCall.connected)
             [VideoCall.Tick; VideoCall.Unmount] VideoCall.Tick eq_refl eq_refl).
  - exact (nothing_arrives_after_the_unmount
             (Scenario.video_call VideoCall.connected)
             [VideoCall.Tick; VideoCall.Unmount] (VideoCall.IceCandidate "c1")
             eq_refl eq_refl).
Defined.

Lemma calm_session_witness :
  let p := Scenario.video_call VideoCall.incoming in
  let events := [VideoCall.MediaResolved Scenario.camera_and_microphone;
                 VideoCall.ClickAccept;
                 VideoCall.StatusChange VideoCall.connected;
                 VideoCall.MediaResolved {| VideoCall.getTracks := [2%nat; 3%nat] |};
                 VideoCall.ClickEnd; VideoCall.Unmount] in
  let w := state_after (VideoCall.session p events) in
  More.calm events (state_after (VideoCall.session p []))
  /\ VideoCall.acquired w = [0%nat; 1%nat; 2%nat; 3%nat]
  /\ VideoCall.live_tracks w = [].
Proof.
  intros p events w.
  assert (Hcalm : More.calm events (state_after (VideoCall.session p [])))
    by (vm_compute; tauto).
  split; [exact Hcalm|]. split; [reflexivity|].
  exact (calm_sessions_release_their_tracks p events Hcalm eq_refl).
Defined.


Lemma toggleAudio_twice_witness :
  let st := {| Controls.isVideoEnabled := true; Controls.isAudioEnabled := true;
               Controls.localStreamRef :=
                 Some [{| Controls.kind := Controls.video; Controls.enabled := true |};
                       {| Controls.kind := Controls.audio; Controls.enabled := true |}] |} in
  Controls.first_enabled Controls.audio (Controls.toggleAudio st) = Some false
  /\ Controls.toggleAudio (Controls.toggleAudio st) = st.
Proof.
  intros st. split; [reflexivity|].
  apply (toggleAudio_twice st). left. reflexivity.
Defined.
